(** * lc0 options dictionary (utils/optionsdict.h)

    A shallow embedding of [TypeDict<T>], [OptionId] and [OptionsDict], and
    the properties of the typed lookup chain, of usage tracking and of
    identity keys.

    Objects of class [OptionsDict] point at each other ([parent_] upwards,
    [subdicts_] downwards) and the read flag of an entry is [mutable]: a
    [const] lookup writes it.  The embedding therefore keeps every
    dictionary in a store indexed by address, and each member function is a
    computation over that store. *)

From stdpp Require Import gmap strings list fin_maps pretty.
From Stdlib Require Import ZArith Ascii Floats.SpecFloat.

Local Open Scope Z_scope.

(** ** Values *)

(** [lczero::Exception] (utils/exception.h) carries its message. *)
Record Exception := mkException { what : string }.

(** C++ [float]: an IEEE-754 binary32 datum. *)
Definition float : Type := spec_float.
Definition float_prec : Z := 24.
Definition float_emax : Z := 128.

(** The four instantiations [TypeDict<bool>], [TypeDict<int>],
    [TypeDict<std::string>], [TypeDict<float>] that [OptionsDict] derives
    from; a template argument [T] is one of these.  An [int] is kept as
    the integer it denotes: the dictionary stores and returns values and
    never computes with them. *)
Inductive ValueType := TBool | TInt | TString | TFloat.

Definition denote (t : ValueType) : Type :=
  match t with
  | TBool => bool
  | TInt => Z
  | TString => string
  | TFloat => float
  end.

(** Value-initialisation [T()] as performed by [operator[]] on a miss. *)
Definition zero (t : ValueType) : denote t :=
  match t with
  | TBool => false
  | TInt => 0
  | TString => EmptyString
  | TFloat => S754_zero false
  end.

#[global] Instance ValueType_eq_dec : EqDecision ValueType.
Proof. solve_decision. Defined.

(** ** TypeDict<T>::V *)

Section V.
Context {T : Type}.

Record V := mkV { value_ : T; is_used_ : bool }.

(** [T& Get()] / [const T& Get() const]: sets [is_used_] and yields
    [value_]; the pair is the cell after the call and the value read. *)
Definition V_Get (v : V) : V * T :=
  (mkV (value_ v) true, value_ v).

(** [void Set(const T& v)]. *)
Definition V_Set (v : V) (x : T) : V :=
  mkV x false.

Definition V_IsSet (v : V) : bool := is_used_ v.

(** [for (auto const& option : dict_) if (!option.second.IsSet()) throw ...]
    over the entries in iteration order. *)
Fixpoint EnsureNoUnusedOptions_loop (type_name prefix : string)
    (entries : list (string * V)) : option Exception :=
  match entries with
  | [] => None
  | option :: rest =>
      if negb (V_IsSet option.2)
      then Some (mkException
                   ("Unknown " +:+ type_name +:+ " option: " +:+ prefix +:+ option.1))
      else EnsureNoUnusedOptions_loop type_name prefix rest
  end.

(** The entries of [dict_] under the keys listed in [order], in that
    order. *)
Definition entries_in (dict_ : gmap string V) (order : list string)
    : list (string * V) :=
  omap (λ key, pair key <$> dict_ !! key) order.

(** [iteration_order dict_ order]: [order] lists the keys in the order in
    which a traversal of the [std::unordered_map] from [begin()] to [end()]
    meets them.  The container chooses that order - it follows from the
    hash function, the bucket count and the history of insertions and
    erasures - so it is not determined by the contents; what holds of it is
    that every key comes exactly once. *)
Definition iteration_order (dict_ : gmap string V) (order : list string)
    : Prop :=
  order ≡ₚ (map_to_list dict_).*1.

(** [TypeDict<T>::EnsureNoUnusedOptions], with the order in which
    [for (auto const& option : dict_)] visits the keys made explicit;
    [None] is a normal return. *)
Definition EnsureNoUnusedOptions (dict_ : gmap string V) (order : list string)
    (type_name prefix : string) : option Exception :=
  EnsureNoUnusedOptions_loop type_name prefix (entries_in dict_ order).

End V.

Arguments V : clear implicits.

(** ** OptionId *)

(** The fields of [struct OptionId]; the [const char*] members are
    represented by the text they point to. *)
Record OptionId_fields := mkOptionId {
  long_flag : string;
  uci_option : string;
  help_text : string;
  short_flag : ascii
}.

(** A [const OptionId&]: the address of the object, as the [intptr_t] that
    [reinterpret_cast] gives, and what is stored there. *)
Record OptionId := mkOptionIdRef {
  address_of : Z;
  fields : OptionId_fields
}.

(** [bool operator==(const OptionId& other) const { return this == &other; }] *)
Definition OptionId_eq (this other : OptionId) : bool :=
  address_of this =? address_of other.

(** [std::to_string] on a signed integer: its decimal digits, with a
    leading minus sign when negative. *)
Definition to_string (n : Z) : string := pretty n.

(** ** OptionsDict *)

Definition addr : Type := Z.

Record OptionsDict := mkOptionsDict {
  bool_dict_ : gmap string (V bool);
  int_dict_ : gmap string (V Z);
  string_dict_ : gmap string (V string);
  float_dict_ : gmap string (V float);
  parent_ : option addr;
  subdicts_ : gmap string addr
}.

(** [TypeDict<T>::dict_] of an [OptionsDict]. *)
Definition dict_ (t : ValueType) (d : OptionsDict) : gmap string (V (denote t)) :=
  match t with
  | TBool => bool_dict_ d
  | TInt => int_dict_ d
  | TString => string_dict_ d
  | TFloat => float_dict_ d
  end.

Definition with_dict_ (t : ValueType) (m : gmap string (V (denote t)))
    (d : OptionsDict) : OptionsDict :=
  match t return gmap string (V (denote t)) → OptionsDict with
  | TBool => fun m =>
      mkOptionsDict m (int_dict_ d) (string_dict_ d) (float_dict_ d)
                    (parent_ d) (subdicts_ d)
  | TInt => fun m =>
      mkOptionsDict (bool_dict_ d) m (string_dict_ d) (float_dict_ d)
                    (parent_ d) (subdicts_ d)
  | TString => fun m =>
      mkOptionsDict (bool_dict_ d) (int_dict_ d) m (float_dict_ d)
                    (parent_ d) (subdicts_ d)
  | TFloat => fun m =>
      mkOptionsDict (bool_dict_ d) (int_dict_ d) (string_dict_ d) m
                    (parent_ d) (subdicts_ d)
  end m.

(** [OptionsDict(const OptionsDict* parent = nullptr)]. *)
Definition new_OptionsDict (parent : option addr) : OptionsDict :=
  mkOptionsDict ∅ ∅ ∅ ∅ parent ∅.

(** ** The store and computations over it *)

Abbreviation heap := (gmap addr OptionsDict).

Inductive outcome (A : Type) : Type :=
| Returns (a : A) (h : heap)
| Throws (e : Exception) (h : heap)
| Undefined
| OutOfFuel.

Arguments Returns {A} a h.
Arguments Throws {A} e h.
Arguments Undefined {A}.
Arguments OutOfFuel {A}.

Definition M (A : Type) : Type := heap → outcome A.

Definition ret {A} (a : A) : M A := fun h => Returns a h.

Definition bind {A B} (m : M A) (k : A → M B) : M B :=
  fun h =>
    match m h with
    | Returns a h' => k a h'
    | Throws e h' => Throws e h'
    | Undefined => Undefined
    | OutOfFuel => OutOfFuel
    end.

Definition throw {A} (e : Exception) : M A := fun h => Throws e h.

Declare Scope od_scope.
Delimit Scope od_scope with od.
Notation "'let*' x ':=' m 'in' k" := (bind m (fun x => k))
  (at level 10, x name, m at level 100, k at level 200) : od_scope.
Notation "'do' m 'then' k" := (bind m (fun _ => k))
  (at level 10, m at level 100, k at level 200) : od_scope.
Local Open Scope od_scope.

(** Access to the object at [this]; an address with no live object is
    undefined behaviour. *)
Definition deref (this : addr) : M OptionsDict :=
  fun h => match h !! this with
           | Some d => Returns d h
           | None => Undefined
           end.

Definition assign (this : addr) (d : OptionsDict) : M unit :=
  fun h => Returns tt (<[this := d]> h).

(** [iter->second.Get()] on the entry found under [key] in the own
    [TypeDict<T>] of [this]: the flag is written in place. *)
Definition entry_Get (t : ValueType) (this : addr) (key : string)
    (v : V (denote t)) : M (denote t) :=
  let* d := deref this in
  do assign this (with_dict_ t (<[key := (V_Get v).1]> (dict_ t d)) d) then
  ret (V_Get v).2.

(** [dict_[key]]: the entry under [key], value-initialised and inserted
    first when there is none. *)
Definition subscript (t : ValueType) (this : addr) (key : string)
    : M (V (denote t)) :=
  let* d := deref this in
  match dict_ t d !! key with
  | Some v => ret v
  | None =>
      do assign this (with_dict_ t (<[key := mkV (zero t) false]> (dict_ t d)) d) then
      ret (mkV (zero t) false)
  end.

Definition KeyNotFound (key : string) : Exception :=
  mkException ("Key [" +:+ key +:+ "] was not set in options.").

(** [template <typename T> T OptionsDict::Get(const std::string& key) const] *)
Fixpoint Get (fuel : nat) (t : ValueType) (this : addr) (key : string)
    : M (denote t) :=
  match fuel with
  | O => fun _ => OutOfFuel
  | S fuel =>
      let* d := deref this in
      match dict_ t d !! key with
      | Some v => entry_Get t this key v
      | None =>
          match parent_ d with
          | Some parent => Get fuel t parent key
          | None => throw (KeyNotFound key)
          end
      end
  end.

(** [bool OptionsDict::Exists(const std::string& key) const] *)
Fixpoint Exists (fuel : nat) (t : ValueType) (this : addr) (key : string)
    : M bool :=
  match fuel with
  | O => fun _ => OutOfFuel
  | S fuel =>
      let* d := deref this in
      match dict_ t d !! key with
      | Some _ => ret true
      | None =>
          match parent_ d with
          | None => ret false
          | Some parent => Exists fuel t parent key
          end
      end
  end.

(** [T OptionsDict::GetOrDefault(const std::string& key, const T& default_val) const] *)
Fixpoint GetOrDefault (fuel : nat) (t : ValueType) (this : addr)
    (key : string) (default_val : denote t) : M (denote t) :=
  match fuel with
  | O => fun _ => OutOfFuel
  | S fuel =>
      let* d := deref this in
      match dict_ t d !! key with
      | Some v => entry_Get t this key v
      | None =>
          match parent_ d with
          | Some parent => GetOrDefault fuel t parent key default_val
          | None => ret default_val
          end
      end
  end.

(** [void OptionsDict::Set(const std::string& key, const T& value)]:
    [TypeDict<T>::dict_[key].Set(value)]. *)
Definition Set_ (t : ValueType) (this : addr) (key : string)
    (value : denote t) : M unit :=
  let* v := subscript t this key in
  let* d := deref this in
  assign this (with_dict_ t (<[key := V_Set v value]> (dict_ t d)) d).

(** A [T&] into the map node of [key] in [TypeDict<T>::dict_] of the
    dictionary at [ref_dict]. *)
Record ref (t : ValueType) := mkRef { ref_dict : addr; ref_key : string }.
Arguments mkRef {t} ref_dict ref_key.
Arguments ref_dict {t} r.
Arguments ref_key {t} r.

(** Reading and writing through such a reference touch [value_] only. *)
Definition ref_load {t} (r : ref t) : M (denote t) :=
  let* d := deref (ref_dict r) in
  match dict_ t d !! ref_key r with
  | Some v => ret (value_ v)
  | None => fun _ => Undefined
  end.

Definition ref_store {t} (r : ref t) (x : denote t) : M unit :=
  let* d := deref (ref_dict r) in
  match dict_ t d !! ref_key r with
  | Some v =>
      assign (ref_dict r)
        (with_dict_ t (<[ref_key r := mkV x (is_used_ v)]> (dict_ t d)) d)
  | None => fun _ => Undefined
  end.

(** [T& OptionsDict::GetRef(const std::string& key)]:
    [return TypeDict<T>::dict_[key].Get();] *)
Definition GetRef (t : ValueType) (this : addr) (key : string) : M (ref t) :=
  let* v := subscript t this key in
  let* d := deref this in
  do assign this (with_dict_ t (<[key := (V_Get v).1]> (dict_ t d)) d) then
  ret (mkRef this key).

(** [bool OptionsDict::IsDefault(const std::string& key) const] *)
Fixpoint IsDefault (fuel : nat) (t : ValueType) (this : addr) (key : string)
    : M bool :=
  match fuel with
  | O => fun _ => OutOfFuel
  | S fuel =>
      let* d := deref this in
      match parent_ d with
      | None => ret true
      | Some parent =>
          match dict_ t d !! key with
          | Some _ => ret false
          | None => IsDefault fuel t parent key
          end
      end
  end.

(** [static std::string GetOptionId(const OptionId& option_id)] *)
Definition GetOptionId (option_id : OptionId) : string :=
  to_string (address_of option_id).

(** The [const OptionId&] overloads. *)
Definition Get_id (fuel : nat) (t : ValueType) (this : addr)
    (option_id : OptionId) : M (denote t) :=
  Get fuel t this (GetOptionId option_id).

Definition Exists_id (fuel : nat) (t : ValueType) (this : addr)
    (option_id : OptionId) : M bool :=
  Exists fuel t this (GetOptionId option_id).

Definition GetOrDefault_id (fuel : nat) (t : ValueType) (this : addr)
    (option_id : OptionId) (default_val : denote t) : M (denote t) :=
  GetOrDefault fuel t this (GetOptionId option_id) default_val.

Definition Set_id (t : ValueType) (this : addr) (option_id : OptionId)
    (value : denote t) : M unit :=
  Set_ t this (GetOptionId option_id) value.

Definition GetRef_id (t : ValueType) (this : addr) (option_id : OptionId)
    : M (ref t) :=
  GetRef t this (GetOptionId option_id).

Definition IsDefault_id (fuel : nat) (t : ValueType) (this : addr)
    (option_id : OptionId) : M bool :=
  IsDefault fuel t this (GetOptionId option_id).

(** ** Shapes of the parent chain *)

(** [absent_below t key h this n a]: [a] lies [n] parent links above
    [this], and none of the [n] dictionaries passed on the way (from
    [this], up to but excluding [a]) holds [key] in its own
    [TypeDict<T>]. *)
Inductive absent_below (t : ValueType) (key : string) (h : heap)
    : addr → nat → addr → Prop :=
| absent_here this : absent_below t key h this 0 this
| absent_up this d parent n a :
    h !! this = Some d →
    dict_ t d !! key = None →
    parent_ d = Some parent →
    absent_below t key h parent n a →
    absent_below t key h this (S n) a.

(** [rooted h this n]: following [parent_] from [this] reaches a
    dictionary without parent after [n] links. *)
Inductive rooted (h : heap) : addr → nat → Prop :=
| rooted_root this d :
    h !! this = Some d → parent_ d = None → rooted h this 0
| rooted_up this d parent n :
    h !! this = Some d → parent_ d = Some parent →
    rooted h parent n → rooted h this (S n).

(** The entry of [key] in the own store of [this] after a read of it. *)
Definition mark_read (t : ValueType) (this : addr) (key : string)
    (h : heap) : heap :=
  match h !! this with
  | Some d =>
      match dict_ t d !! key with
      | Some v =>
          <[this := with_dict_ t (<[key := mkV (value_ v) true]> (dict_ t d)) d]> h
      | None => h
      end
  | None => h
  end.

(** What a caller observes of an outcome, the store left aside. *)
Inductive result (A : Type) : Type :=
| Value (a : A)
| Raised (e : Exception)
| NoResult.
Arguments Value {A} a.
Arguments Raised {A} e.
Arguments NoResult {A}.

Definition result_of {A} (o : outcome A) : result A :=
  match o with
  | Returns a _ => Value a
  | Throws e _ => Raised e
  | Undefined | OutOfFuel => NoResult
  end.

(** ** Sub-dictionaries and the usage check *)

(** Fresh storage for a new object. *)
Definition alloc (d : OptionsDict) : M addr :=
  fun h => let a := fresh (dom h) in Returns a (<[a := d]> h).

Definition with_subdicts_ (s : gmap string addr) (d : OptionsDict)
    : OptionsDict :=
  mkOptionsDict (bool_dict_ d) (int_dict_ d) (string_dict_ d) (float_dict_ d)
                (parent_ d) s.

Definition DuplicateSubscope (name : string) : Exception :=
  mkException ("DuplicateSubscope: " +:+ name).

Definition SubscopeNotFound (name : string) : Exception :=
  mkException ("SubscopeNotFound: " +:+ name).

Definition SyntaxError (position : nat) : Exception :=
  mkException ("SyntaxError at " +:+ pretty position).

(** Modelled from the spec: the body of [OptionsDict::HasSubdict], declared
    in the header and defined in optionsdict.cc, which is not among the
    sources.  "has_subscope(name) -> bool". *)
Definition HasSubdict (this : addr) (name : string) : M bool :=
  let* d := deref this in
  ret (bool_decide (is_Some (subdicts_ d !! name))).

(** Modelled from the spec: the body of [OptionsDict::AddSubdict]
    (optionsdict.cc).  "creates and returns a new child; fails with
    DuplicateSubscope if name already present"; the child "receives a
    parent reference back to the current scope". *)
Definition AddSubdict (this : addr) (name : string) : M addr :=
  let* d := deref this in
  match subdicts_ d !! name with
  | Some _ => throw (DuplicateSubscope name)
  | None =>
      let* child := alloc (new_OptionsDict (Some this)) in
      do assign this (with_subdicts_ (<[name := child]> (subdicts_ d)) d) then
      ret child
  end.

(** Modelled from the spec: the body of [OptionsDict::GetSubdict] and
    [GetMutableSubdict] (optionsdict.cc).  "fails with SubscopeNotFound if
    absent". *)
Definition GetSubdict (this : addr) (name : string) : M addr :=
  let* d := deref this in
  match subdicts_ d !! name with
  | Some child => ret child
  | None => throw (SubscopeNotFound name)
  end.

Definition rethrow (o : option Exception) : M unit :=
  match o with
  | Some e => throw e
  | None => ret tt
  end.

(** Modelled from the spec: the body of [OptionsDict::CheckAllOptionsRead]
    (optionsdict.cc), over [TypeDict<T>::EnsureNoUnusedOptions] of the
    header.  "for each supported type's own TypedStore, find the first
    unread entry; fails with UnrecognizedOption naming path_label + key on
    the first one found (does not recurse into children)"; the types in the
    order the spec lists them, "boolean, integer, floating-point, text".
    [order t] is the order in which [TypeDict<T>::dict_] is iterated at the
    time of the call. *)
Definition CheckAllOptionsRead (this : addr) (path_from_parent : string)
    (order : ValueType → list string) : M unit :=
  let* d := deref this in
  do rethrow (EnsureNoUnusedOptions (bool_dict_ d) (order TBool)
                "boolean" path_from_parent) then
  do rethrow (EnsureNoUnusedOptions (int_dict_ d) (order TInt)
                "integer" path_from_parent) then
  do rethrow (EnsureNoUnusedOptions (float_dict_ d) (order TFloat)
                "floating-point" path_from_parent) then
  rethrow (EnsureNoUnusedOptions (string_dict_ d) (order TString)
             "text" path_from_parent).

(** ** The text form of a dictionary *)

(** Modelled from the spec: [OptionsDict::AddSubdictFromString] is declared
    in the header and defined in optionsdict.cc, which is not among the
    sources; the lexer, the literal forms and the parser below follow the
    grammar and the typing of literals that the spec gives:
    "scope := assignment (',' assignment)*;
     assignment := identifier '=' value | identifier '(' scope ')';
     value := quoted-string | bare-token". *)
Inductive token :=
| T_word (s : string)
| T_quoted (s : string)
| T_equal
| T_lparen
| T_rparen
| T_comma.

Definition quote_char : ascii := "034"%char.
Definition backslash_char : ascii := "092"%char.

Definition is_space (c : ascii) : bool :=
  (c =? " ")%char || (c =? "009")%char || (c =? "010")%char || (c =? "013")%char.

Definition string_of_rev (acc : list ascii) : string :=
  String.string_of_list_ascii (rev acc).

Inductive lex_state :=
| Idle
| InWord (start : nat) (acc : list ascii)
| InQuote (start : nat) (acc : list ascii)
| InEscape (start : nat) (acc : list ascii).

Definition flush (st : lex_state) : list (nat * token) :=
  match st with
  | InWord start acc => [(start, T_word (string_of_rev acc))]
  | _ => []
  end.

Definition prepend (ts : list (nat * token))
    (r : Exception + list (nat * token)) : Exception + list (nat * token) :=
  match r with
  | inl e => inl e
  | inr l => inr (ts ++ l)
  end.

(** Modelled from the spec: one pass over the characters, left to right;
    "whitespace around tokens is insignificant"; a quoted string runs to
    the next unescaped quote and fails when there is none. *)
Fixpoint lex (st : lex_state) (pos : nat) (s : string)
    : Exception + list (nat * token) :=
  match s with
  | EmptyString =>
      match st with
      | InQuote start _ | InEscape start _ => inl (SyntaxError start)
      | _ => inr (flush st)
      end
  | String c rest =>
      match st with
      | InQuote start acc =>
          if (c =? quote_char)%char
          then prepend [(start, T_quoted (string_of_rev acc))] (lex Idle (S pos) rest)
          else if (c =? backslash_char)%char
          then lex (InEscape start acc) (S pos) rest
          else lex (InQuote start (c :: acc)) (S pos) rest
      | InEscape start acc => lex (InQuote start (c :: acc)) (S pos) rest
      | _ =>
          if is_space c then prepend (flush st) (lex Idle (S pos) rest)
          else if (c =? "=")%char
          then prepend (flush st ++ [(pos, T_equal)]) (lex Idle (S pos) rest)
          else if (c =? "(")%char
          then prepend (flush st ++ [(pos, T_lparen)]) (lex Idle (S pos) rest)
          else if (c =? ")")%char
          then prepend (flush st ++ [(pos, T_rparen)]) (lex Idle (S pos) rest)
          else if (c =? ",")%char
          then prepend (flush st ++ [(pos, T_comma)]) (lex Idle (S pos) rest)
          else if (c =? quote_char)%char
          then prepend (flush st) (lex (InQuote pos []) (S pos) rest)
          else match st with
               | InWord start acc => lex (InWord start (c :: acc)) (S pos) rest
               | _ => lex (InWord pos [c]) (S pos) rest
               end
      end
  end.

Definition digit_value (c : ascii) : option Z :=
  let n := Z.of_N (N_of_ascii c) in
  if (48 <=? n) && (n <=? 57) then Some (n - 48) else None.

(** The longest prefix of decimal digits, as (number of digits, value),
    and what follows it. *)
Fixpoint span_digits (count : nat) (acc : Z) (s : string) : nat * Z * string :=
  match s with
  | EmptyString => (count, acc, s)
  | String c rest =>
      match digit_value c with
      | Some v => span_digits (S count) (10 * acc + v) rest
      | None => (count, acc, s)
      end
  end.

Definition split_sign (s : string) : bool * string :=
  match s with
  | String c rest =>
      if (c =? "-")%char then (true, rest)
      else if (c =? "+")%char then (false, rest)
      else (false, s)
  | EmptyString => (false, s)
  end.

(** An integer literal: an optional sign and one or more digits. *)
Definition integer_literal (w : string) : option Z :=
  let '(neg, s) := split_sign w in
  match span_digits 0 0 s with
  | (S _, v, EmptyString) => Some (if neg then - v else v)
  | _ => None
  end.

(** The binary32 value nearest to [m * 10 ^ e10]. *)
Definition decimal_to_float (neg : bool) (m : Z) (e10 : Z) : float :=
  match m with
  | Zpos p =>
      if 0 <=? e10
      then binary_normalize float_prec float_emax
             ((if neg then Zneg p else Zpos p) * 10 ^ e10) 0 false
      else SFdiv float_prec float_emax
             (S754_finite neg p 0)
             (S754_finite false (Z.to_pos (10 ^ (- e10))) 0)
  | _ => S754_zero neg
  end.

(** The exponent part of a literal: absent, or [e]/[E], an optional sign
    and one or more digits up to the end of the token. *)
Definition exponent_part (s : string) : option (option Z) :=
  match s with
  | EmptyString => Some None
  | String c rest =>
      if (c =? "e")%char || (c =? "E")%char
      then let '(neg, r) := split_sign rest in
           match span_digits 0 0 r with
           | (S _, v, EmptyString) => Some (Some (if neg then - v else v))
           | _ => None
           end
      else None
  end.

(** A floating-point literal: a number that "contains '.' or exponent". *)
Definition float_literal (w : string) : option float :=
  let '(neg, s1) := split_sign w in
  let '(ni, vi, s2) := span_digits 0 0 s1 in
  let '(has_dot, nf, vm, s3) :=
    match s2 with
    | String c rest =>
        if (c =? ".")%char
        then let '(n, v, r) := span_digits 0 vi rest in (true, n, v, r)
        else (false, 0%nat, vi, s2)
    | EmptyString => (false, 0%nat, vi, s2)
    end in
  match exponent_part s3 with
  | Some e =>
      if (has_dot || bool_decide (is_Some e)) && negb (ni + nf =? 0)%nat
      then Some (decimal_to_float neg vm (default 0 e - Z.of_nat nf))
      else None
  | None => None
  end.

(** Modelled from the spec: "a bare assignment key=value sets a value into
    the current scope, type-inferred from the literal form (quoted → text;
    contains '.' or exponent → floating-point; true/false → boolean; else →
    integer, falling back to text if not numeric)". *)
Definition set_bare (this : addr) (key w : string) : M unit :=
  match float_literal w with
  | Some x => Set_ TFloat this key x
  | None =>
      if String.eqb w "true" then Set_ TBool this key true
      else if String.eqb w "false" then Set_ TBool this key false
      else match integer_literal w with
           | Some n => Set_ TInt this key n
           | None => Set_ TString this key w
           end
  end.

Definition position_of (end_pos : nat) (toks : list (nat * token)) : nat :=
  match toks with
  | (p, _) :: _ => p
  | [] => end_pos
  end.

(** Modelled from the spec: the recursive descent over the tokens, "with
    one token of lookahead to distinguish = from ("; a parenthesised form
    "creates a sub-scope named name under the current scope and recursively
    parses its contents within that sub-scope".  Yields the tokens left
    after the scope. *)
Fixpoint parse_scope (fuel : nat) (end_pos : nat) (this : addr)
    (toks : list (nat * token)) : M (list (nat * token)) :=
  match fuel with
  | O => fun _ => OutOfFuel
  | S fuel =>
      let more (rest : list (nat * token)) : M (list (nat * token)) :=
        match rest with
        | (_, T_comma) :: rest' => parse_scope fuel end_pos this rest'
        | _ => ret rest
        end in
      match toks with
      | (_, T_word name) :: (_, T_equal) :: (_, T_quoted s) :: rest =>
          do Set_ TString this name s then more rest
      | (_, T_word name) :: (_, T_equal) :: (_, T_word w) :: rest =>
          do set_bare this name w then more rest
      | (_, T_word name) :: (_, T_equal) :: rest =>
          throw (SyntaxError (position_of end_pos rest))
      | (_, T_word name) :: (_, T_lparen) :: rest =>
          let* child := AddSubdict this name in
          let* rest' := parse_scope fuel end_pos child rest in
          match rest' with
          | (_, T_rparen) :: rest'' => more rest''
          | _ => throw (SyntaxError (position_of end_pos rest'))
          end
      | (_, T_word name) :: rest =>
          throw (SyntaxError (position_of end_pos rest))
      | _ => throw (SyntaxError (position_of end_pos toks))
      end
  end.

(** Modelled from the spec: [OptionsDict::AddSubdictFromString]; fails
    with a syntax error on "trailing garbage after the top-level scope". *)
Definition AddSubdictFromString (this : addr) (str : string) : M unit :=
  match lex Idle 0 str with
  | inl e => throw e
  | inr toks =>
      let* rest := parse_scope (S (length toks)) (String.length str) this toks in
      match rest with
      | [] => ret tt
      | (p, _) :: _ => throw (SyntaxError p)
      end
  end.

(** ** Notions used in the statements *)

(** Two stores show the same to a lookup of [key] in [TypeDict<T>]: the
    same objects are live, each with the same parent and the same entry
    (or none) under [key]. *)
Definition same_view (t : ValueType) (key : string) (h h1 : heap) : Prop :=
  ∀ a, match h !! a, h1 !! a with
       | Some d, Some d1 =>
           dict_ t d !! key = dict_ t d1 !! key ∧ parent_ d = parent_ d1
       | None, None => True
       | _, _ => False
       end.

(** The entry of [key] in [TypeDict<T>] of [d] exists and is not read. *)
Definition unread (d : OptionsDict) (t : ValueType) (key : string) : bool :=
  match dict_ t d !! key with
  | Some v => negb (is_used_ v)
  | None => false
  end.

(** [d] with the entry of [key] in its [TypeDict<T>] set to [v]. *)
Definition with_entry (t : ValueType) (key : string) (v : V (denote t))
    (d : OptionsDict) : OptionsDict :=
  with_dict_ t (<[key := v]> (dict_ t d)) d.

(** The spec's [find_unread] of a typed store: "the first entry (in
    iteration order) whose read flag is false, or none", for the iteration
    order [order]. *)
Definition find_unread {T} (dict : gmap string (V T)) (order : list string)
    : option string :=
  fst <$> List.find (λ option, negb (is_used_ option.2)) (entries_in dict order).

(** The message of [EnsureNoUnusedOptions], i.e. the spec's
    UnrecognizedOption. *)
Definition UnrecognizedOption (type_name name : string) : Exception :=
  mkException ("Unknown " +:+ type_name +:+ " option: " +:+ name).

Definition type_name (t : ValueType) : string :=
  match t with
  | TBool => "boolean"
  | TInt => "integer"
  | TFloat => "floating-point"
  | TString => "text"
  end.

(** The first unread entry over the four stores, in the order in which
    [CheckAllOptionsRead] visits them. *)
Definition first_unread_option (d : OptionsDict)
    (order : ValueType → list string) : option (ValueType * string) :=
  match find_unread (bool_dict_ d) (order TBool) with
  | Some k => Some (TBool, k)
  | None =>
      match find_unread (int_dict_ d) (order TInt) with
      | Some k => Some (TInt, k)
      | None =>
          match find_unread (float_dict_ d) (order TFloat) with
          | Some k => Some (TFloat, k)
          | None =>
              match find_unread (string_dict_ d) (order TString) with
              | Some k => Some (TString, k)
              | None => None
              end
          end
      end
  end.

(** ** Sample configurations *)

Definition sample_root : OptionsDict :=
  mkOptionsDict ∅ (<["threads" := mkV 1 false]> (<["depth" := mkV 7 false]> ∅))
    ∅ ∅ None (<["search" := 2]> ∅).

Definition sample_search : OptionsDict :=
  mkOptionsDict ∅ (<["threads" := mkV 2 false]> ∅) ∅ ∅
    (Some 1) (<["leaf" := 3]> ∅).

Definition sample_leaf : OptionsDict := new_OptionsDict (Some 2).

Definition sample_heap : heap :=
  <[1 := sample_root]> (<[2 := sample_search]> (<[3 := sample_leaf]> ∅)).

(** The text [a=1, b=2.5, c="x", d(e=3)]. *)
Definition sample_text : string :=
  "a=1, b=2.5, c=" +:+ String quote_char ("x" +:+ String quote_char ", d(e=3)").

(** A store holding one dictionary without parent, at address 1. *)
Definition root_heap : heap := <[1 := new_OptionsDict None]> ∅.

(** Two [OptionId] objects with the same contents at different
    addresses. *)
Definition threads_fields : OptionId_fields :=
  mkOptionId "threads" "Threads" "Number of worker threads." "t".

Definition key_A : OptionId := mkOptionIdRef 4096 threads_fields.
Definition key_B : OptionId := mkOptionIdRef 8192 threads_fields.

(** The binary32 datum 2.5, that is 10485760 * 2^-22. *)
Definition float_2_5 : float := S754_finite false 10485760 (-22).

(** The two dictionaries that [sample_text] describes: the enclosing one
    and its sub-dictionary [d]. *)
Definition parsed_d : OptionsDict :=
  with_entry TInt "e" (mkV 3 false) (new_OptionsDict (Some 1)).

Definition parsed_root : OptionsDict :=
  with_subdicts_ (<["d" := 2]> ∅)
    (with_entry TString "c" (mkV "x" false)
       (with_entry TFloat "b" (mkV float_2_5 false)
          (with_entry TInt "a" (mkV 1 false) (new_OptionsDict None)))).

Definition parsed_heap : heap := <[1 := parsed_root]> (<[2 := parsed_d]> ∅).

(** A root whose only entry is read, over a sub-dictionary whose entry is
    not. *)
Definition checked_root : OptionsDict :=
  with_subdicts_ (<["d" := 2]> ∅)
    (with_entry TInt "a" (mkV 1 true) (new_OptionsDict None)).

Definition checked_heap : heap := <[1 := checked_root]> (<[2 := parsed_d]> ∅).

(** ** Relations between two stores *)

(** [h'] is [h] up to read flags, and a flag that was set stays set: the
    same objects are live, with the same parent, the same
    sub-dictionaries and, under every key of every typed store, the same
    value. *)
Definition reads_only (h h' : heap) : Prop :=
  ∀ a, match h !! a, h' !! a with
       | Some d, Some d' =>
           parent_ d' = parent_ d
           ∧ subdicts_ d' = subdicts_ d
           ∧ ∀ t k, match dict_ t d !! k, dict_ t d' !! k with
                    | Some v, Some v' =>
                        value_ v' = value_ v
                        ∧ (is_used_ v = true → is_used_ v' = true)
                    | None, None => True
                    | _, _ => False
                    end
       | None, None => True
       | _, _ => False
       end.

(** Two stores hold the same value (or none) under [key] in the
    [TypeDict<T>] of every object, and the same parent links. *)
Definition same_values_at (t : ValueType) (key : string) (h h' : heap) : Prop :=
  ∀ a, match h !! a, h' !! a with
       | Some d, Some d' =>
           parent_ d' = parent_ d
           ∧ value_ <$> dict_ t d' !! key = value_ <$> dict_ t d !! key
       | None, None => True
       | _, _ => False
       end.

(** Two stores have the same live objects with the same parent links. *)
Definition same_links (h h' : heap) : Prop :=
  ∀ a, parent_ <$> h' !! a = parent_ <$> h !! a.

(** [avoids h this that]: the parent chain of [that] ends at a root and
    does not pass through [this]. *)
Inductive avoids (h : heap) (this : addr) : addr → Prop :=
| avoids_root that d :
    that ≠ this → h !! that = Some d → parent_ d = None →
    avoids h this that
| avoids_up that d parent :
    that ≠ this → h !! that = Some d → parent_ d = Some parent →
    avoids h this parent →
    avoids h this that.

(** Iteration orders for the sample dictionaries: [keys] for the integer
    store, the other stores being empty; and one key per store. *)
Definition int_keys (keys : list string) (t : ValueType) : list string :=
  match t with
  | TInt => keys
  | _ => []
  end.

Definition abc_keys (t : ValueType) : list string :=
  match t with
  | TBool => []
  | TInt => ["a"]
  | TFloat => ["b"]
  | TString => ["c"]
  end.


(** ** Basic facts on the typed stores *)

Lemma dict_with_dict_eq t m d : dict_ t (with_dict_ t m d) = m.
Proof. by destruct t. Qed.

Lemma dict_with_dict_ne t t' m d :
  t ≠ t' → dict_ t' (with_dict_ t m d) = dict_ t' d.
Proof. by destruct t, t'. Qed.

Lemma parent_with_dict t m d : parent_ (with_dict_ t m d) = parent_ d.
Proof. by destruct t. Qed.

Lemma subdicts_with_dict t m d : subdicts_ (with_dict_ t m d) = subdicts_ d.
Proof. by destruct t. Qed.

Lemma with_dict_id t d : with_dict_ t (dict_ t d) d = d.
Proof. by destruct t, d. Qed.

Lemma with_dict_with_dict t m m' d :
  with_dict_ t m (with_dict_ t m' d) = with_dict_ t m d.
Proof. by destruct t. Qed.

(** ** Unfolding equations of the member functions *)

Lemma Get_0 t this key h : Get 0 t this key h = OutOfFuel.
Proof. reflexivity. Qed.

Lemma Get_S fuel t this key h :
  Get (S fuel) t this key h =
  match h !! this with
  | None => Undefined
  | Some d =>
      match dict_ t d !! key with
      | Some v =>
          Returns (value_ v)
            (<[this := with_dict_ t (<[key := mkV (value_ v) true]> (dict_ t d)) d]> h)
      | None =>
          match parent_ d with
          | Some parent => Get fuel t parent key h
          | None => Throws (KeyNotFound key) h
          end
      end
  end.
Proof.
  simpl. unfold bind at 1. unfold deref at 1.
  destruct (h !! this) as [d|] eqn:Hd; [|done].
  destruct (dict_ t d !! key) as [v|]; [|by destruct (parent_ d)].
  unfold entry_Get, bind, deref, assign, ret. by rewrite Hd.
Qed.

Lemma GetOrDefault_S fuel t this key dv h :
  GetOrDefault (S fuel) t this key dv h =
  match h !! this with
  | None => Undefined
  | Some d =>
      match dict_ t d !! key with
      | Some v =>
          Returns (value_ v)
            (<[this := with_dict_ t (<[key := mkV (value_ v) true]> (dict_ t d)) d]> h)
      | None =>
          match parent_ d with
          | Some parent => GetOrDefault fuel t parent key dv h
          | None => Returns dv h
          end
      end
  end.
Proof.
  simpl. unfold bind at 1. unfold deref at 1.
  destruct (h !! this) as [d|] eqn:Hd; [|done].
  destruct (dict_ t d !! key) as [v|]; [|by destruct (parent_ d)].
  unfold entry_Get, bind, deref, assign, ret. by rewrite Hd.
Qed.

Lemma Exists_S fuel t this key h :
  Exists (S fuel) t this key h =
  match h !! this with
  | None => Undefined
  | Some d =>
      match dict_ t d !! key with
      | Some _ => Returns true h
      | None =>
          match parent_ d with
          | None => Returns false h
          | Some parent => Exists fuel t parent key h
          end
      end
  end.
Proof.
  simpl. unfold bind, deref.
  destruct (h !! this) as [d|]; [|done].
  destruct (dict_ t d !! key); [done|]. by destruct (parent_ d).
Qed.

Lemma IsDefault_S fuel t this key h :
  IsDefault (S fuel) t this key h =
  match h !! this with
  | None => Undefined
  | Some d =>
      match parent_ d with
      | None => Returns true h
      | Some parent =>
          match dict_ t d !! key with
          | Some _ => Returns false h
          | None => IsDefault fuel t parent key h
          end
      end
  end.
Proof.
  simpl. unfold bind, deref.
  destruct (h !! this) as [d|]; [|done].
  destruct (parent_ d); [|done]. by destruct (dict_ t d !! key).
Qed.

Lemma subscript_eq t this key h :
  subscript t this key h =
  match h !! this with
  | None => Undefined
  | Some d =>
      match dict_ t d !! key with
      | Some v => Returns v h
      | None =>
          Returns (mkV (zero t) false)
            (<[this := with_dict_ t (<[key := mkV (zero t) false]> (dict_ t d)) d]> h)
      end
  end.
Proof.
  unfold subscript, bind, deref.
  destruct (h !! this) as [d|]; [|done].
  by destruct (dict_ t d !! key).
Qed.

Lemma Set_eq t this key value h :
  Set_ t this key value h =
  match h !! this with
  | None => Undefined
  | Some d =>
      Returns tt
        (<[this := with_dict_ t (<[key := mkV value false]> (dict_ t d)) d]> h)
  end.
Proof.
  unfold Set_, bind. rewrite subscript_eq.
  destruct (h !! this) as [d|] eqn:Hd; [|done].
  destruct (dict_ t d !! key) as [v|]; unfold deref, assign, V_Set.
  - by rewrite Hd.
  - rewrite lookup_insert_eq, dict_with_dict_eq, insert_insert_eq,
      with_dict_with_dict, insert_insert_eq. done.
Qed.

Lemma GetRef_eq t this key h :
  GetRef t this key h =
  match h !! this with
  | None => Undefined
  | Some d =>
      Returns (mkRef this key)
        (<[this := with_dict_ t
             (<[key := mkV (default (zero t) (value_ <$> dict_ t d !! key)) true]>
                (dict_ t d)) d]> h)
  end.
Proof.
  unfold GetRef, bind. rewrite subscript_eq.
  destruct (h !! this) as [d|] eqn:Hd; [|done].
  destruct (dict_ t d !! key) as [v|]; unfold deref, assign, ret, V_Get; simpl.
  - by rewrite Hd.
  - rewrite lookup_insert_eq, dict_with_dict_eq, insert_insert_eq,
      with_dict_with_dict, insert_insert_eq. done.
Qed.

(** ** Fuel *)

(** Once a lookup has an outcome, more fuel does not change it. *)
Lemma Get_fuel_mono t key h fuel :
  ∀ this fuel', (fuel ≤ fuel')%nat →
    Get fuel t this key h ≠ OutOfFuel →
    Get fuel' t this key h = Get fuel t this key h.
Proof.
  induction fuel as [|fuel IH]; intros this fuel' Hle Hne; [done|].
  destruct fuel' as [|fuel']; [lia|].
  rewrite !Get_S in *.
  destruct (h !! this) as [d|]; [|done].
  destruct (dict_ t d !! key); [done|].
  destruct (parent_ d); [|done].
  apply IH; [lia|done].
Qed.

Lemma Get_absent_below t key h this n a :
  absent_below t key h this n a →
  ∀ fuel, Get (n + fuel) t this key h = Get fuel t a key h.
Proof.
  induction 1 as [|this d parent n a Hd Hk Hp _ IH]; intros fuel; [done|].
  simpl Nat.add. rewrite Get_S, Hd, Hk, Hp. apply IH.
Qed.

Lemma GetOrDefault_absent_below t key dv h this n a :
  absent_below t key h this n a →
  ∀ fuel, GetOrDefault (n + fuel) t this key dv h = GetOrDefault fuel t a key dv h.
Proof.
  induction 1 as [|this d parent n a Hd Hk Hp _ IH]; intros fuel; [done|].
  simpl Nat.add. rewrite GetOrDefault_S, Hd, Hk, Hp. apply IH.
Qed.

(** ** Lookup along the parent chain *)

(** C1. [Get<T>(key)] on a dictionary yields the value held in its own
    [TypeDict<T>] when the key is there (and marks that entry read);
    otherwise it yields whatever the parent's [Get<T>(key)] yields; with
    no parent and no entry it throws the "was not set" exception and leaves
    the store as it was.  Hence an entry held [n] links up the chain, with
    no nearer entry, is what the dictionary sees, whatever the ancestors
    above it hold; and a key held nowhere up to the root is not found. *)
Theorem Get_parent_chain (t : ValueType) (key : string) (h : heap)
    (this : addr) (d : OptionsDict) (Hthis : h !! this = Some d) :
  (∀ v, dict_ t d !! key = Some v →
     ∀ fuel, (0 < fuel)%nat →
       Get fuel t this key h =
       Returns (value_ v)
         (<[this := with_dict_ t (<[key := mkV (value_ v) true]> (dict_ t d)) d]> h))
  ∧ (∀ parent, dict_ t d !! key = None → parent_ d = Some parent →
       (∀ fuel, Get (S fuel) t this key h = Get fuel t parent key h)
       ∧ (∀ fuel fuel', Get fuel t parent key h ≠ OutOfFuel →
            (fuel < fuel')%nat →
            Get fuel' t this key h = Get fuel t parent key h))
  ∧ (dict_ t d !! key = None → parent_ d = None →
       ∀ fuel, (0 < fuel)%nat →
         Get fuel t this key h = Throws (KeyNotFound key) h)
  ∧ (∀ n a da v,
       absent_below t key h this n a →
       h !! a = Some da → dict_ t da !! key = Some v →
       ∀ fuel, (n < fuel)%nat →
         Get fuel t this key h =
         Returns (value_ v)
           (<[a := with_dict_ t (<[key := mkV (value_ v) true]> (dict_ t da)) da]> h))
  ∧ (∀ n a da,
       absent_below t key h this n a →
       h !! a = Some da → dict_ t da !! key = None → parent_ da = None →
       ∀ fuel, (n < fuel)%nat →
         Get fuel t this key h = Throws (KeyNotFound key) h).
Proof.
  split; [|split; [|split; [|split]]].
  - intros v Hv [|fuel] Hf; [lia|]. by rewrite Get_S, Hthis, Hv.
  - intros parent Hk Hp.
    assert (Hstep : ∀ fuel, Get (S fuel) t this key h = Get fuel t parent key h).
    { intros fuel. by rewrite Get_S, Hthis, Hk, Hp. }
    split; [done|]. intros fuel fuel' Hne Hlt.
    rewrite (Get_fuel_mono t key h (S fuel) this fuel'); [done|lia|].
    by rewrite Hstep.
  - intros Hk Hp [|fuel] Hf; [lia|]. by rewrite Get_S, Hthis, Hk, Hp.
  - intros n a da v Hab Ha Hv fuel Hf.
    replace fuel with (n + S (fuel - S n))%nat by lia.
    rewrite (Get_absent_below _ _ _ _ _ _ Hab), Get_S, Ha, Hv. done.
  - intros n a da Hab Ha Hk Hp fuel Hf.
    replace fuel with (n + S (fuel - S n))%nat by lia.
    rewrite (Get_absent_below _ _ _ _ _ _ Hab), Get_S, Ha, Hk, Hp. done.
Qed.

Lemma Get_parent_chain_witness :
  Get 3 TInt 3 "threads" sample_heap =
    Returns 2 (mark_read TInt 2 "threads" sample_heap)
  ∧ Get 3 TInt 3 "nodes" sample_heap = Throws (KeyNotFound "nodes") sample_heap.
Proof.
  destruct (Get_parent_chain TInt "threads" sample_heap 3 sample_leaf eq_refl)
    as (_ & _ & _ & Hshadow & _).
  destruct (Get_parent_chain TInt "nodes" sample_heap 3 sample_leaf eq_refl)
    as (_ & _ & _ & _ & Hmiss).
  split.
  - apply (Hshadow 1%nat 2 sample_search (mkV 2 false));
      [|reflexivity|reflexivity|lia].
    eapply absent_up; [reflexivity..|apply absent_here].
  - apply (Hmiss 2%nat 1 sample_root); [|reflexivity..|lia].
    eapply absent_up; [reflexivity..|].
    eapply absent_up; [reflexivity..|apply absent_here].
Defined.

(** ** Writing, then reading *)

(** C2. After [Set<T>(key, value)] on a dictionary, [Get<T>(key)] on the
    same dictionary returns [value], and the entry of [key] in the own
    store of that dictionary is then marked read (it was unread between the
    two calls). *)
Theorem Set_then_Get (t : ValueType) (this : addr) (key : string)
    (value : denote t) (h : heap) (d : OptionsDict)
    (Hthis : h !! this = Some d) :
  ∃ h1 d1,
    Set_ t this key value h = Returns tt h1
    ∧ h1 !! this = Some d1
    ∧ dict_ t d1 !! key = Some (mkV value false)
    ∧ ∀ fuel, (0 < fuel)%nat →
        ∃ h2 d2,
          Get fuel t this key h1 = Returns value h2
          ∧ (do Set_ t this key value then Get fuel t this key) h
            = Returns value h2
          ∧ h2 !! this = Some d2
          ∧ dict_ t d2 !! key = Some (mkV value true).
Proof.
  eexists _, _. split; [by rewrite Set_eq, Hthis|].
  split; [apply lookup_insert_eq|].
  split; [by rewrite dict_with_dict_eq, lookup_insert_eq|].
  intros [|fuel] Hf; [lia|].
  assert (HG : Get (S fuel) t this key
                 (<[this := with_dict_ t (<[key := mkV value false]> (dict_ t d)) d]> h)
               = Returns value
                   (<[this := with_dict_ t (<[key := mkV value true]> (dict_ t d)) d]> h)).
  { rewrite Get_S, lookup_insert_eq, dict_with_dict_eq, lookup_insert_eq. simpl.
    by rewrite insert_insert_eq, with_dict_with_dict, insert_insert_eq. }
  eexists _, _. split; [exact HG|].
  split; [by unfold bind; rewrite Set_eq, Hthis|].
  split; [apply lookup_insert_eq|].
  by rewrite dict_with_dict_eq, lookup_insert_eq.
Qed.

Lemma Set_then_Get_witness :
  ∃ h2 d2,
    (do Set_ TInt 2 "threads" 8 then Get 1 TInt 2 "threads") sample_heap
      = Returns 8 h2
    ∧ h2 !! 2 = Some d2
    ∧ dict_ TInt d2 !! "threads" = Some (mkV 8 true).
Proof.
  destruct (Set_then_Get TInt 2 "threads" 8 sample_heap sample_search eq_refl)
    as (h1 & d1 & _ & _ & _ & Hget).
  destruct (Hget 1%nat ltac:(lia)) as (h2 & d2 & _ & Hseq & Hd2 & Hk).
  exists h2, d2. auto.
Defined.

(** ** IsDefault *)

(** C3. [IsDefault<T>(key)] is true on a dictionary without parent,
    whatever its own store holds; on a dictionary with a parent it is false
    when the key is in the own [TypeDict<T>], and otherwise it is the
    parent's [IsDefault<T>(key)].  The store is left as it was. *)
Theorem IsDefault_cases (t : ValueType) (key : string) (h : heap)
    (this : addr) (d : OptionsDict) (Hthis : h !! this = Some d) :
  (parent_ d = None →
     ∀ fuel, (0 < fuel)%nat → IsDefault fuel t this key h = Returns true h)
  ∧ (∀ parent v, parent_ d = Some parent → dict_ t d !! key = Some v →
       ∀ fuel, (0 < fuel)%nat → IsDefault fuel t this key h = Returns false h)
  ∧ (∀ parent, parent_ d = Some parent → dict_ t d !! key = None →
       ∀ fuel, IsDefault (S fuel) t this key h = IsDefault fuel t parent key h).
Proof.
  split; [|split].
  - intros Hp [|fuel] Hf; [lia|]. by rewrite IsDefault_S, Hthis, Hp.
  - intros parent v Hp Hk [|fuel] Hf; [lia|].
    by rewrite IsDefault_S, Hthis, Hp, Hk.
  - intros parent Hp Hk fuel. by rewrite IsDefault_S, Hthis, Hp, Hk.
Qed.

Lemma IsDefault_cases_witness :
  IsDefault 1 TInt 1 "threads" sample_heap = Returns true sample_heap
  ∧ IsDefault 1 TInt 2 "threads" sample_heap = Returns false sample_heap
  ∧ IsDefault 2 TInt 3 "threads" sample_heap = Returns false sample_heap.
Proof.
  destruct (IsDefault_cases TInt "threads" sample_heap 1 sample_root eq_refl)
    as (Hroot & _ & _).
  destruct (IsDefault_cases TInt "threads" sample_heap 2 sample_search eq_refl)
    as (_ & Hown & _).
  destruct (IsDefault_cases TInt "threads" sample_heap 3 sample_leaf eq_refl)
    as (_ & _ & Hup).
  split; [apply Hroot; [reflexivity|lia]|].
  split; [apply (Hown 1 (mkV 2 false)); [reflexivity..|lia]|].
  rewrite (Hup 2); [|reflexivity..].
  apply (Hown 1 (mkV 2 false)); [reflexivity..|lia].
Defined.

(** ** GetOrDefault *)

Lemma GetOrDefault_as_Get t key dv h fuel :
  ∀ this,
    GetOrDefault fuel t this key dv h =
    match Get fuel t this key h with
    | Returns x h' => Returns x h'
    | Throws _ h' => Returns dv h'
    | Undefined => Undefined
    | OutOfFuel => OutOfFuel
    end.
Proof.
  induction fuel as [|fuel IH]; intros this; [done|].
  rewrite GetOrDefault_S, Get_S.
  destruct (h !! this) as [d|]; [|done].
  destruct (dict_ t d !! key); [done|].
  destruct (parent_ d); [apply IH|done].
Qed.

Lemma GetOrDefault_returns t key dv h this n :
  rooted h this n →
  ∀ fuel, (n < fuel)%nat →
    ∃ x h', GetOrDefault fuel t this key dv h = Returns x h'.
Proof.
  induction 1 as [this d Hd Hp|this d parent n Hd Hp _ IH];
    intros [|fuel] Hf; try lia; rewrite GetOrDefault_S, Hd.
  - destruct (dict_ t d !! key); rewrite ?Hp; eauto.
  - destruct (dict_ t d !! key); rewrite ?Hp; [eauto|]. apply IH. lia.
Qed.

Lemma absent_below_root_depth t key h this m a da :
  absent_below t key h this m a →
  h !! a = Some da → parent_ da = None →
  ∀ n, rooted h this n → m = n.
Proof.
  induction 1 as [this|this d parent m a Hd Hk Hp _ IH]; intros Ha Hroot n Hr.
  - inversion Hr; simplify_eq; done.
  - inversion Hr; simplify_eq. f_equal. by apply IH.
Qed.

(** C8. On a dictionary whose parent chain ends at a root,
    [GetOrDefault<T>(key, default_val)] returns and never throws; it yields
    what [Get<T>(key)] yields wherever that returns, with the same effect on
    the store, and [default_val] where [Get] throws; in particular it
    yields [default_val], the store untouched, when the key is in the
    [TypeDict<T>] of no dictionary from this one up to the root. *)
Theorem GetOrDefault_never_fails (t : ValueType) (key : string)
    (default_val : denote t) (h : heap) (this : addr) (n : nat)
    (Hrooted : rooted h this n) (fuel : nat) (Hfuel : (n < fuel)%nat) :
  (∃ x h', GetOrDefault fuel t this key default_val h = Returns x h')
  ∧ GetOrDefault fuel t this key default_val h =
      match Get fuel t this key h with
      | Returns x h' => Returns x h'
      | Throws _ h' => Returns default_val h'
      | Undefined => Undefined
      | OutOfFuel => OutOfFuel
      end
  ∧ (∀ m a da,
       absent_below t key h this m a →
       h !! a = Some da → dict_ t da !! key = None → parent_ da = None →
       GetOrDefault fuel t this key default_val h = Returns default_val h).
Proof.
  split; [by eapply GetOrDefault_returns|].
  split; [apply GetOrDefault_as_Get|].
  intros m a da Hab Ha Hk Hp.
  assert (m = n) as -> by (by eapply absent_below_root_depth).
  replace fuel with (n + S (fuel - S n))%nat by lia.
  rewrite (GetOrDefault_absent_below _ _ _ _ _ _ _ Hab).
  by rewrite GetOrDefault_S, Ha, Hk, Hp.
Qed.

Lemma sample_leaf_rooted : rooted sample_heap 3 2.
Proof.
  eapply rooted_up; [reflexivity..|].
  eapply rooted_up; [reflexivity..|].
  eapply rooted_root; reflexivity.
Defined.

Lemma GetOrDefault_never_fails_witness :
  GetOrDefault 3 TInt 3 "nodes" 800 sample_heap = Returns 800 sample_heap
  ∧ ∃ h', GetOrDefault 3 TInt 3 "threads" 800 sample_heap = Returns 2 h'.
Proof.
  destruct (GetOrDefault_never_fails TInt "nodes" 800 sample_heap 3 2
              sample_leaf_rooted 3 ltac:(lia)) as (_ & _ & Habs).
  destruct (GetOrDefault_never_fails TInt "threads" 800 sample_heap 3 2
              sample_leaf_rooted 3 ltac:(lia)) as (_ & Hget & _).
  split.
  - apply (Habs 2%nat 1 sample_root); [|reflexivity..].
    eapply absent_up; [reflexivity..|].
    eapply absent_up; [reflexivity..|apply absent_here].
  - rewrite Hget. eexists. reflexivity.
Defined.

(** ** GetRef *)

(** C9. [GetRef<T>(key)] works on the own [TypeDict<T>] of the dictionary
    alone: the outcome is fixed by that dictionary, no other object of the
    store is read or written; an absent entry is created holding the
    value-initialised [T]; the entry is marked read in either case; and the
    reference returned designates that entry of the own store, so a read
    through it yields the entry's value and a write through it lands
    there. *)
Theorem GetRef_own_store (t : ValueType) (this : addr) (key : string)
    (h : heap) (d : OptionsDict) (Hthis : h !! this = Some d) :
  ∃ x,
    let d' := with_dict_ t (<[key := mkV x true]> (dict_ t d)) d in
    GetRef t this key h = Returns (mkRef this key) (<[this := d']> h)
    ∧ (dict_ t d !! key = None → x = zero t)
    ∧ (∀ v, dict_ t d !! key = Some v → x = value_ v)
    ∧ (∀ a, a ≠ this → <[this := d']> h !! a = h !! a)
    ∧ (∀ h0, h0 !! this = Some d →
         GetRef t this key h0 = Returns (mkRef this key) (<[this := d']> h0))
    ∧ ref_load (mkRef this key) (<[this := d']> h)
      = Returns x (<[this := d']> h)
    ∧ (∀ y, ref_store (mkRef this key) y (<[this := d']> h)
            = Returns tt
                (<[this := with_dict_ t (<[key := mkV y true]> (dict_ t d)) d]> h)).
Proof.
  exists (default (zero t) (value_ <$> dict_ t d !! key)). simpl.
  split; [by rewrite GetRef_eq, Hthis|].
  split; [by intros ->|].
  split; [by intros v ->|].
  split; [by intros a Ha; rewrite lookup_insert_ne|].
  split; [by intros h0 H0; rewrite GetRef_eq, H0|].
  split.
  - unfold ref_load, bind, deref. simpl.
    by rewrite lookup_insert_eq, dict_with_dict_eq, lookup_insert_eq.
  - intros y. unfold ref_store, bind, deref, assign. simpl.
    rewrite lookup_insert_eq, dict_with_dict_eq, lookup_insert_eq. simpl.
    by rewrite insert_insert_eq, with_dict_with_dict, insert_insert_eq.
Qed.

Lemma GetRef_own_store_witness :
  GetRef TInt 3 "threads" sample_heap =
    Returns (mkRef 3 "threads")
      (<[3 := with_dict_ TInt (<["threads" := mkV 0 true]> ∅) sample_leaf]>
         sample_heap).
Proof.
  destruct (GetRef_own_store TInt 3 "threads" sample_heap sample_leaf eq_refl)
    as (x & Hret & Hzero & _).
  rewrite Hret, (Hzero eq_refl). reflexivity.
Defined.

(** ** Exists and IsDefault read nothing *)

Lemma Exists_outcome t key h fuel :
  ∀ this, match Exists fuel t this key h with
          | Returns _ h' => h' = h
          | Throws _ _ => False
          | _ => True
          end.
Proof.
  induction fuel as [|fuel IH]; intros this; [done|].
  rewrite Exists_S. destruct (h !! this) as [d|]; [|done].
  destruct (dict_ t d !! key); [done|].
  destruct (parent_ d); [apply IH|done].
Qed.

Lemma IsDefault_outcome t key h fuel :
  ∀ this, match IsDefault fuel t this key h with
          | Returns _ h' => h' = h
          | Throws _ _ => False
          | _ => True
          end.
Proof.
  induction fuel as [|fuel IH]; intros this; [done|].
  rewrite IsDefault_S. destruct (h !! this) as [d|]; [|done].
  destruct (parent_ d); [|done].
  destruct (dict_ t d !! key); [done|apply IH].
Qed.

Lemma Exists_returns t key h this n :
  rooted h this n →
  ∀ fuel, (n < fuel)%nat → ∃ b, Exists fuel t this key h = Returns b h.
Proof.
  induction 1 as [this d Hd Hp|this d parent n Hd Hp _ IH];
    intros [|fuel] Hf; try lia; rewrite Exists_S, Hd.
  - destruct (dict_ t d !! key); rewrite ?Hp; eauto.
  - destruct (dict_ t d !! key); rewrite ?Hp; [eauto|]. apply IH. lia.
Qed.

Lemma IsDefault_returns t key h this n :
  rooted h this n →
  ∀ fuel, (n < fuel)%nat → ∃ b, IsDefault fuel t this key h = Returns b h.
Proof.
  induction 1 as [this d Hd Hp|this d parent n Hd Hp _ IH];
    intros [|fuel] Hf; try lia; rewrite IsDefault_S, Hd, Hp.
  - eauto.
  - destruct (dict_ t d !! key); [eauto|]. apply IH. lia.
Qed.

(** C10. [Exists<T>(key)] and [IsDefault<T>(key)] return with the whole
    store exactly as it was: no read flag changes, in the dictionary or in
    any ancestor.  Whatever runs after them, a usage check included, runs
    as if they had not been called. *)
Theorem Exists_IsDefault_frame (t : ValueType) (this : addr) (key : string)
    (h : heap) (n : nat) (Hrooted : rooted h this n)
    (fuel : nat) (Hfuel : (n < fuel)%nat) :
  (∃ b, Exists fuel t this key h = Returns b h)
  ∧ (∃ b, IsDefault fuel t this key h = Returns b h)
  ∧ (∀ b h', Exists fuel t this key h = Returns b h' → h' = h)
  ∧ (∀ b h', IsDefault fuel t this key h = Returns b h' → h' = h)
  ∧ (∀ A (k : M A),
       (do Exists fuel t this key then k) h = k h
       ∧ (do IsDefault fuel t this key then k) h = k h)
  ∧ (∀ scope path order,
       (do Exists fuel t this key then CheckAllOptionsRead scope path order) h
         = CheckAllOptionsRead scope path order h
       ∧ (do IsDefault fuel t this key then
          CheckAllOptionsRead scope path order) h
         = CheckAllOptionsRead scope path order h).
Proof.
  destruct (Exists_returns t key h this n Hrooted fuel Hfuel) as [b Hb].
  destruct (IsDefault_returns t key h this n Hrooted fuel Hfuel) as [b' Hb'].
  assert (Hk : ∀ A (k : M A),
             (do Exists fuel t this key then k) h = k h
             ∧ (do IsDefault fuel t this key then k) h = k h).
  { intros A k. unfold bind. by rewrite Hb, Hb'. }
  split; [eauto|]. split; [eauto|].
  split; [intros ? ? Heq; rewrite Hb in Heq; by simplify_eq|].
  split; [intros ? ? Heq; rewrite Hb' in Heq; by simplify_eq|].
  split; [exact Hk|]. intros scope path order. apply Hk.
Qed.

Lemma Exists_IsDefault_frame_witness :
  Exists 3 TInt 3 "threads" sample_heap = Returns true sample_heap
  ∧ IsDefault 3 TInt 3 "threads" sample_heap = Returns false sample_heap
  ∧ (do Exists 3 TInt 3 "threads" then
     CheckAllOptionsRead 2 "search." (int_keys ["threads"])) sample_heap
    = CheckAllOptionsRead 2 "search." (int_keys ["threads"]) sample_heap.
Proof.
  destruct (Exists_IsDefault_frame TInt 3 "threads" sample_heap 2
              sample_leaf_rooted 3 ltac:(lia))
    as ([b Hb] & [b' Hb'] & _ & _ & _ & Hcheck).
  split; [rewrite Hb; vm_compute in Hb; by simplify_eq|].
  split; [rewrite Hb'; vm_compute in Hb'; by simplify_eq|].
  apply Hcheck.
Defined.

(** ** Identity keys *)

Lemma GetOptionId_inj a b :
  GetOptionId a = GetOptionId b → address_of a = address_of b.
Proof. unfold GetOptionId, to_string. apply (inj pretty). Qed.

Lemma Get_same_view t key h h1 :
  same_view t key h h1 →
  ∀ fuel this,
    result_of (Get fuel t this key h1) = result_of (Get fuel t this key h).
Proof.
  intros Hv fuel. induction fuel as [|fuel IH]; intros this; [done|].
  rewrite !Get_S. specialize (Hv this).
  destruct (h !! this) as [d|], (h1 !! this) as [d1|]; try done.
  destruct Hv as [<- <-].
  destruct (dict_ t d !! key); [done|].
  destruct (parent_ d); [apply IH|done].
Qed.

Lemma Exists_same_view t key h h1 :
  same_view t key h h1 →
  ∀ fuel this,
    result_of (Exists fuel t this key h1) = result_of (Exists fuel t this key h).
Proof.
  intros Hv fuel. induction fuel as [|fuel IH]; intros this; [done|].
  rewrite !Exists_S. specialize (Hv this).
  destruct (h !! this) as [d|], (h1 !! this) as [d1|]; try done.
  destruct Hv as [<- <-].
  destruct (dict_ t d !! key); [done|].
  destruct (parent_ d); [apply IH|done].
Qed.

Lemma lookup_with_entry_eq t key v d :
  dict_ t (with_entry t key v d) !! key = Some v.
Proof. unfold with_entry. by rewrite dict_with_dict_eq, lookup_insert_eq. Qed.

Lemma lookup_with_entry_ne t key v d t' key' :
  t ≠ t' ∨ key ≠ key' →
  dict_ t' (with_entry t key v d) !! key' = dict_ t' d !! key'.
Proof.
  unfold with_entry. intros Hne.
  destruct (decide (t = t')) as [<-|Ht].
  - rewrite dict_with_dict_eq, lookup_insert_ne; [done|]. by destruct Hne.
  - by rewrite dict_with_dict_ne.
Qed.

Lemma Set_same_view t' scope ka value h h1 t kb :
  Set_ t' scope ka value h = Returns tt h1 →
  t' ≠ t ∨ ka ≠ kb →
  same_view t kb h h1.
Proof.
  rewrite Set_eq. destruct (h !! scope) as [d|] eqn:Hd; [|done].
  intros [= <-] Hne a.
  destruct (decide (a = scope)) as [->|Ha].
  - rewrite Hd, lookup_insert_eq, parent_with_dict.
    split; [|done]. symmetry. by apply lookup_with_entry_ne.
  - rewrite lookup_insert_ne by done. by destruct (h !! a).
Qed.

(** C6. The [OptionId] overloads are the string-keyed operations at
    [GetOptionId], a string fixed by the identity (the address) of the key
    object: one object always gives one string, and two objects that
    [operator==] tells apart never give the same string.  Hence a [Set]
    through one key, on any dictionary and at any type, changes neither
    what [Get] nor what [Exists] through the other key yields, on any
    dictionary, whatever the two objects contain. *)
Theorem OptionId_keys_independent (a b : OptionId)
    (Hdistinct : OptionId_eq a b = false) :
  GetOptionId a ≠ GetOptionId b
  ∧ (∀ c, OptionId_eq a c = true → GetOptionId a = GetOptionId c)
  ∧ (∀ fuel t this,
       Get_id fuel t this a = Get fuel t this (GetOptionId a)
       ∧ Exists_id fuel t this a = Exists fuel t this (GetOptionId a))
  ∧ (∀ t this value, Set_id t this a value = Set_ t this (GetOptionId a) value)
  ∧ (∀ t' scope value h h1,
       Set_id t' scope a value h = Returns tt h1 →
       ∀ fuel t this,
         result_of (Get_id fuel t this b h1) = result_of (Get_id fuel t this b h)
         ∧ result_of (Exists_id fuel t this b h1)
           = result_of (Exists_id fuel t this b h)).
Proof.
  assert (Hne : GetOptionId a ≠ GetOptionId b).
  { intros Heq%GetOptionId_inj. unfold OptionId_eq in Hdistinct. lia. }
  split; [done|].
  split.
  { intros c Hc. unfold OptionId_eq in Hc. unfold GetOptionId.
    f_equal. lia. }
  split; [done|]. split; [done|].
  intros t' scope value h h1 HSet fuel t this.
  assert (Hv : same_view t (GetOptionId b) h h1).
  { eapply Set_same_view; [exact HSet|]. by right. }
  split; [by apply Get_same_view|by apply Exists_same_view].
Qed.

Lemma OptionId_keys_independent_witness :
  fields key_A = fields key_B
  ∧ GetOptionId key_A ≠ GetOptionId key_B
  ∧ ∃ h0 h1,
      Set_id TInt 1 key_B 7 root_heap = Returns tt h0
      ∧ Set_id TInt 1 key_A 4 h0 = Returns tt h1
      ∧ result_of (Get_id 1 TInt 1 key_B h1) = Value 7.
Proof.
  destruct (OptionId_keys_independent key_A key_B eq_refl)
    as (Hne & _ & _ & _ & Hind).
  split; [reflexivity|]. split; [exact Hne|].
  set (d0 := with_entry TInt "8192" (mkV 7 false) (new_OptionsDict None)).
  set (h0 := <[1 := d0]> root_heap).
  set (h1 := <[1 := with_entry TInt "4096" (mkV 4 false) d0]> h0).
  exists h0, h1. split; [reflexivity|]. split; [reflexivity|].
  rewrite (proj1 (Hind TInt 1 4 h0 h1 eq_refl 1%nat TInt 1)).
  reflexivity.
Defined.

(** C7, as the code has it.  The string that identifies an [OptionId] is
    the decimal form of the address of the object, cast to [intptr_t]:
    nothing stored in the object enters it, and two keys get the same
    string exactly when they are at the same address. *)
Theorem GetOptionId_is_address (o : OptionId) :
  GetOptionId o = to_string (address_of o)
  ∧ (∀ contents, GetOptionId (mkOptionIdRef (address_of o) contents)
                 = GetOptionId o)
  ∧ (∀ o', GetOptionId o = GetOptionId o' ↔ address_of o = address_of o').
Proof.
  split; [done|]. split; [done|].
  intros o'. split; [apply GetOptionId_inj|].
  unfold GetOptionId. by intros ->.
Qed.

Lemma GetOptionId_is_address_witness :
  GetOptionId key_A = "4096"
  ∧ GetOptionId (mkOptionIdRef 4096 (mkOptionId "nodes" "Nodes" "Node limit." "n"))
    = GetOptionId key_A
  ∧ (GetOptionId key_A = GetOptionId key_B ↔ 4096 = 8192).
Proof.
  destruct (GetOptionId_is_address key_A) as (Haddr & Hcontents & Hiff).
  split; [rewrite Haddr; reflexivity|].
  split; [apply Hcontents|apply Hiff].
Defined.

(** C7, as stated, fails: were the string computed from an id kept inside
    the key object, two objects with the same contents would get the same
    string; [key_A] and [key_B] hold the same contents and get ["4096"]
    and ["8192"]. *)
Lemma GetOptionId_not_a_stored_id :
  fields key_A = fields key_B
  ∧ GetOptionId key_A = "4096"
  ∧ GetOptionId key_B = "8192"
  ∧ ¬ (∃ id_of : OptionId_fields → Z,
         ∀ o, GetOptionId o = to_string (id_of (fields o))).
Proof.
  split; [reflexivity|]. split; [reflexivity|]. split; [reflexivity|].
  intros [id_of Hid].
  pose proof (Hid key_A) as HA. pose proof (Hid key_B) as HB.
  change (fields key_B) with (fields key_A) in HB.
  rewrite <- HB in HA. apply GetOptionId_inj in HA. discriminate HA.
Qed.

(** ** The usage check *)

Section find_unread.
Context {T : Type}.
Implicit Types dict : gmap string (V T).

Lemma elem_of_entries_in dict order k v :
  (k, v) ∈ entries_in dict order ↔ k ∈ order ∧ dict !! k = Some v.
Proof.
  unfold entries_in. rewrite list_elem_of_omap. split.
  - intros (key & Hin & Hk).
    destruct (dict !! key) eqn:Hl; simplify_eq/=. done.
  - intros [Hin Hk]. exists k. by rewrite Hk.
Qed.

Lemma iteration_order_elem dict order k :
  iteration_order dict order → (k ∈ order ↔ is_Some (dict !! k)).
Proof.
  unfold iteration_order. intros ->. rewrite list_elem_of_fmap. split.
  - intros ([k' v] & -> & Hin). apply elem_of_map_to_list in Hin. by exists v.
  - intros [v Hv]. exists (k, v). split; [done|]. by apply elem_of_map_to_list.
Qed.

Lemma EnsureNoUnusedOptions_find_unread dict order tn prefix :
  EnsureNoUnusedOptions dict order tn prefix =
  (λ k, UnrecognizedOption tn (prefix +:+ k)) <$> find_unread dict order.
Proof.
  unfold EnsureNoUnusedOptions, find_unread.
  induction (entries_in dict order) as [|[k v] l IH]; [done|].
  simpl. unfold V_IsSet. by destruct (is_used_ v).
Qed.

Lemma find_unread_first dict order k :
  find_unread dict order = Some k →
  ∃ before v after,
    entries_in dict order = before ++ (k, v) :: after
    ∧ is_used_ v = false
    ∧ Forall (λ e, is_used_ e.2 = true) before.
Proof.
  unfold find_unread.
  induction (entries_in dict order) as [|[k' v'] l IH]; [done|].
  simpl. destruct (is_used_ v') eqn:Hu; simpl.
  - intros Hf. destruct (IH Hf) as (before & v & after & -> & Hv & Hall).
    exists ((k', v') :: before), v, after. split; [done|]. split; [done|].
    by constructor.
  - intros [= <-]. by exists [], v', l.
Qed.

Lemma find_unread_Some dict order k :
  find_unread dict order = Some k →
  ∃ v, dict !! k = Some v ∧ is_used_ v = false.
Proof.
  intros (before & v & after & Hl & Hv & _)%find_unread_first.
  exists v. split; [|done].
  apply (elem_of_entries_in dict order k v). rewrite Hl.
  apply elem_of_app. right. by left.
Qed.

Lemma find_unread_all_read dict order :
  (∀ k v, dict !! k = Some v → is_used_ v = true) →
  find_unread dict order = None.
Proof.
  intros Hall. unfold find_unread.
  destruct (List.find _ _) as [[k v]|] eqn:Hfind; [|done].
  apply find_some in Hfind as [Hin Hu]. simpl in Hu.
  apply list_elem_of_In, elem_of_entries_in in Hin as [_ Hk].
  by rewrite (Hall _ _ Hk) in Hu.
Qed.

Lemma find_unread_None dict order :
  iteration_order dict order →
  find_unread dict order = None ↔ ∀ k v, dict !! k = Some v → is_used_ v = true.
Proof.
  intros Horder. split; [|apply find_unread_all_read].
  unfold find_unread. intros Hf k v Hk.
  destruct (List.find _ _) eqn:Hfind; [done|].
  assert (Hin : (k, v) ∈ entries_in dict order).
  { apply elem_of_entries_in. split; [|done].
    apply (iteration_order_elem dict order k Horder). by exists v. }
  apply list_elem_of_In in Hin.
  pose proof (find_none _ _ Hfind _ Hin) as Hn. simpl in Hn.
  by destruct (is_used_ v).
Qed.

End find_unread.

Lemma find_unread_unread d t order k :
  find_unread (dict_ t d) order = Some k → unread d t k = true.
Proof.
  intros (v & Hv & Hu)%find_unread_Some. unfold unread. by rewrite Hv, Hu.
Qed.

Lemma find_unread_none_unread d t order :
  iteration_order (dict_ t d) order →
  find_unread (dict_ t d) order = None ↔ ∀ k, unread d t k = false.
Proof.
  intros Horder. rewrite (find_unread_None _ _ Horder). unfold unread. split.
  - intros Hall k. destruct (dict_ t d !! k) as [v|] eqn:Hk; [|done].
    by rewrite (Hall _ _ Hk).
  - intros Hall k v Hk. specialize (Hall k). rewrite Hk in Hall.
    by destruct (is_used_ v).
Qed.

Lemma first_unread_option_None d order :
  (∀ t, iteration_order (dict_ t d) (order t)) →
  first_unread_option d order = None ↔ ∀ t k, unread d t k = false.
Proof.
  intros Horder. unfold first_unread_option. split.
  - intros Hf t.
    destruct (find_unread (bool_dict_ d) _) eqn:Hb; [done|].
    destruct (find_unread (int_dict_ d) _) eqn:Hi; [done|].
    destruct (find_unread (float_dict_ d) _) eqn:Hfl; [done|].
    destruct (find_unread (string_dict_ d) _) eqn:Hs; [done|].
    apply (find_unread_none_unread d t (order t) (Horder t)). by destruct t.
  - intros Hall.
    pose proof (proj2 (find_unread_none_unread d TBool _ (Horder TBool))
                  (Hall TBool)) as Hb.
    pose proof (proj2 (find_unread_none_unread d TInt _ (Horder TInt))
                  (Hall TInt)) as Hi.
    pose proof (proj2 (find_unread_none_unread d TFloat _ (Horder TFloat))
                  (Hall TFloat)) as Hfl.
    pose proof (proj2 (find_unread_none_unread d TString _ (Horder TString))
                  (Hall TString)) as Hs.
    simpl in Hb, Hi, Hfl, Hs. by rewrite Hb, Hi, Hfl, Hs.
Qed.

Lemma first_unread_option_Some d order t k :
  first_unread_option d order = Some (t, k) →
  find_unread (dict_ t d) (order t) = Some k.
Proof.
  unfold first_unread_option.
  destruct (find_unread (bool_dict_ d) _) eqn:Hb; [by intros [= <- <-]|].
  destruct (find_unread (int_dict_ d) _) eqn:Hi; [by intros [= <- <-]|].
  destruct (find_unread (float_dict_ d) _) eqn:Hfl; [by intros [= <- <-]|].
  destruct (find_unread (string_dict_ d) _) eqn:Hs; [by intros [= <- <-]|done].
Qed.

Lemma first_unread_option_only d order t k :
  (∀ t, iteration_order (dict_ t d) (order t)) →
  unread d t k = true →
  (∀ t' k', unread d t' k' = true → t' = t ∧ k' = k) →
  first_unread_option d order = Some (t, k).
Proof.
  intros Horder Hu Honly.
  destruct (first_unread_option d order) as [[t' k']|] eqn:Hf.
  - apply first_unread_option_Some, find_unread_unread, Honly in Hf.
    by destruct Hf as [-> ->].
  - rewrite (first_unread_option_None d order Horder) in Hf.
    by rewrite Hf in Hu.
Qed.

Lemma CheckAllOptionsRead_eq this path order h :
  CheckAllOptionsRead this path order h =
  match h !! this with
  | None => Undefined
  | Some d =>
      match first_unread_option d order with
      | Some (t, k) => Throws (UnrecognizedOption (type_name t) (path +:+ k)) h
      | None => Returns tt h
      end
  end.
Proof.
  unfold CheckAllOptionsRead, first_unread_option, bind, deref.
  destruct (h !! this) as [d|]; [|done].
  rewrite !EnsureNoUnusedOptions_find_unread.
  destruct (find_unread (bool_dict_ d) _); [done|].
  destruct (find_unread (int_dict_ d) _); [done|].
  destruct (find_unread (float_dict_ d) _); [done|].
  by destruct (find_unread (string_dict_ d) _).
Qed.

Lemma entry_ne_sym (t t' : ValueType) (key key' : string) :
  t ≠ t' ∨ key ≠ key' → t' ≠ t ∨ key' ≠ key.
Proof. intros [?|?]; [left|right]; congruence. Qed.

Lemma unread_with_entry t key v d t' key' :
  unread (with_entry t key v d) t' key' =
  if decide (t = t' ∧ key = key') then negb (is_used_ v) else unread d t' key'.
Proof.
  unfold unread. case_decide as Hc.
  - destruct Hc as [<- <-]. by rewrite lookup_with_entry_eq.
  - rewrite lookup_with_entry_ne; [done|].
    destruct (decide (t = t')), (decide (key = key')); naive_solver.
Qed.

Lemma Set_at t this key value h d :
  h !! this = Some d →
  Set_ t this key value h =
  Returns tt (<[this := with_entry t key (mkV value false) d]> h).
Proof. intros Hd. by rewrite Set_eq, Hd. Qed.

Lemma Get_own t this key h d v fuel :
  h !! this = Some d → dict_ t d !! key = Some v →
  Get (S fuel) t this key h =
  Returns (value_ v) (<[this := with_entry t key (mkV (value_ v) true) d]> h).
Proof. intros Hd Hv. by rewrite Get_S, Hd, Hv. Qed.

(** C4. [CheckAllOptionsRead(path)] looks at the four typed stores of the
    dictionary itself, in turn, and throws the "Unknown ... option"
    exception naming [path] followed by the key of the first entry not
    read - first in the order in which the store is iterated, whatever
    that order is - of the first store that has one; it returns normally
    exactly when every entry of the four stores is read.  Nothing but the
    dictionary's own stores is consulted, so unread entries of
    sub-dictionaries do not make it fail.  After three [Set]s on a
    dictionary with nothing unread and [Get]s of two of the keys, it throws
    naming the third key, in every iteration order. *)
Theorem CheckAllOptionsRead_first_unread (this : addr) (path : string)
    (h : heap) (d : OptionsDict) (Hthis : h !! this = Some d)
    (order : ValueType → list string)
    (Horder : ∀ t, iteration_order (dict_ t d) (order t)) :
  CheckAllOptionsRead this path order h =
    match first_unread_option d order with
    | Some (t, k) => Throws (UnrecognizedOption (type_name t) (path +:+ k)) h
    | None => Returns tt h
    end
  ∧ (∀ t k, first_unread_option d order = Some (t, k) →
       ∃ before v after,
         entries_in (dict_ t d) (order t) = before ++ (k, v) :: after
         ∧ dict_ t d !! k = Some v
         ∧ is_used_ v = false
         ∧ Forall (λ e, is_used_ e.2 = true) before)
  ∧ (CheckAllOptionsRead this path order h = Returns tt h
     ↔ ∀ t k v, dict_ t d !! k = Some v → is_used_ v = true)
  ∧ (∀ h0 d0, h0 !! this = Some d0 → (∀ t, dict_ t d0 = dict_ t d) →
       result_of (CheckAllOptionsRead this path order h0)
       = result_of (CheckAllOptionsRead this path order h))
  ∧ (∀ t1 k1 v1 t2 k2 v2 t3 k3 v3 fuel,
       (∀ t k, unread d t k = false) →
       t1 ≠ t2 ∨ k1 ≠ k2 → t1 ≠ t3 ∨ k1 ≠ k3 → t2 ≠ t3 ∨ k2 ≠ k3 →
       (0 < fuel)%nat →
       let d' := with_entry t2 k2 (mkV v2 true)
                   (with_entry t1 k1 (mkV v1 true)
                      (with_entry t3 k3 (mkV v3 false)
                         (with_entry t2 k2 (mkV v2 false)
                            (with_entry t1 k1 (mkV v1 false) d)))) in
       ∀ order', (∀ t, iteration_order (dict_ t d') (order' t)) →
         (do Set_ t1 this k1 v1 then
          do Set_ t2 this k2 v2 then
          do Set_ t3 this k3 v3 then
          do Get fuel t1 this k1 then
          do Get fuel t2 this k2 then
          CheckAllOptionsRead this path order') h
         = Throws (UnrecognizedOption (type_name t3) (path +:+ k3))
             (<[this := d']> h)).
Proof.
  assert (Heq := CheckAllOptionsRead_eq this path order h).
  rewrite Hthis in Heq.
  split; [exact Heq|].
  split.
  { intros t k Hf. apply first_unread_option_Some in Hf.
    destruct (find_unread_first _ _ _ Hf) as (before & v & after & Hl & Hv & Hb).
    exists before, v, after. split; [done|]. split; [|done].
    apply (elem_of_entries_in (dict_ t d) (order t) k v). rewrite Hl.
    apply elem_of_app. right. by left. }
  split.
  { rewrite Heq. split.
    - intros Hret t k v Hk.
      destruct (first_unread_option d order) as [[t' k']|] eqn:Hf; [done|].
      rewrite (first_unread_option_None d order Horder) in Hf.
      specialize (Hf t k).
      unfold unread in Hf. rewrite Hk in Hf. by destruct (is_used_ v).
    - intros Hall.
      assert (first_unread_option d order = None) as ->; [|done].
      apply (first_unread_option_None d order Horder). intros t k.
      unfold unread.
      destruct (dict_ t d !! k) as [v|] eqn:Hk; [|done].
      by rewrite (Hall _ _ _ Hk). }
  split.
  { intros h0 d0 H0 Hsame. rewrite Heq, CheckAllOptionsRead_eq, H0.
    assert (first_unread_option d0 order = first_unread_option d order) as ->.
    { pose proof (Hsame TBool) as Hb. pose proof (Hsame TInt) as Hi.
      pose proof (Hsame TFloat) as Hfl. pose proof (Hsame TString) as Hs.
      simpl in Hb, Hi, Hfl, Hs. unfold first_unread_option.
      by rewrite Hb, Hi, Hfl, Hs. }
    by destruct (first_unread_option d order) as [[? ?]|]. }
  intros t1 k1 v1 t2 k2 v2 t3 k3 v3 [|fuel] Hnone H12 H13 H23 Hfuel; [lia|].
  set (d1 := with_entry t1 k1 (mkV v1 false) d).
  set (d2 := with_entry t2 k2 (mkV v2 false) d1).
  set (d3 := with_entry t3 k3 (mkV v3 false) d2).
  set (d4 := with_entry t1 k1 (mkV v1 true) d3).
  set (d5 := with_entry t2 k2 (mkV v2 true) d4).
  intros d' order' Horder'. change d' with d5 in *. clear d'.
  unfold bind at 1. rewrite (Set_at _ _ _ _ _ _ Hthis). fold d1.
  unfold bind at 1. rewrite (Set_at _ _ _ _ _ d1) by apply lookup_insert_eq.
  rewrite insert_insert_eq. fold d2.
  unfold bind at 1. rewrite (Set_at _ _ _ _ _ d2) by apply lookup_insert_eq.
  rewrite insert_insert_eq. fold d3.
  unfold bind at 1.
  rewrite (Get_own t1 this k1 _ d3 (mkV v1 false)); [|apply lookup_insert_eq|].
  2:{ unfold d3, d2, d1.
      rewrite !lookup_with_entry_ne by (by apply entry_ne_sym).
      apply lookup_with_entry_eq. }
  rewrite insert_insert_eq. simpl value_. fold d4.
  unfold bind at 1.
  rewrite (Get_own t2 this k2 _ d4 (mkV v2 false)); [|apply lookup_insert_eq|].
  2:{ unfold d4, d3, d2.
      rewrite lookup_with_entry_ne by done.
      rewrite lookup_with_entry_ne by (by apply entry_ne_sym).
      apply lookup_with_entry_eq. }
  rewrite insert_insert_eq. simpl value_. fold d5.
  rewrite CheckAllOptionsRead_eq, lookup_insert_eq.
  rewrite (first_unread_option_only d5 order' t3 k3 Horder'); [done| |].
  - unfold d5, d4, d3. rewrite !unread_with_entry.
    repeat case_decide; simpl; intuition congruence.
  - intros t' k'. unfold d5, d4, d3, d2, d1. rewrite !unread_with_entry.
    rewrite Hnone. repeat case_decide; simpl; intuition congruence.
Qed.

Lemma unread_new_OptionsDict parent t k :
  unread (new_OptionsDict parent) t k = false.
Proof. by destruct t. Qed.

Lemma sample_root_depth_first : ∀ t, iteration_order (dict_ t sample_root)
                                       (int_keys ["depth"; "threads"] t).
Proof. intros []; vm_compute; (reflexivity || apply perm_swap). Defined.

Lemma sample_root_threads_first : ∀ t, iteration_order (dict_ t sample_root)
                                         (int_keys ["threads"; "depth"] t).
Proof. intros []; vm_compute; (reflexivity || apply perm_swap). Defined.

Lemma checked_root_order : ∀ t, iteration_order (dict_ t checked_root)
                                  (int_keys ["a"] t).
Proof. intros []; vm_compute; reflexivity. Defined.

Lemma CheckAllOptionsRead_first_unread_witness :
  CheckAllOptionsRead 1 "root." (int_keys ["depth"; "threads"]) sample_heap
    = Throws (UnrecognizedOption "integer" "root.depth") sample_heap
  ∧ CheckAllOptionsRead 1 "root." (int_keys ["threads"; "depth"]) sample_heap
    = Throws (UnrecognizedOption "integer" "root.threads") sample_heap
  ∧ CheckAllOptionsRead 1 "root." (int_keys ["a"]) checked_heap
    = Returns tt checked_heap
  ∧ ∃ h',
      (do Set_ TInt 1 "a" 1 then
       do Set_ TFloat 1 "b" float_2_5 then
       do Set_ TString 1 "c" "x" then
       do Get 1 TInt 1 "a" then
       do Get 1 TFloat 1 "b" then
       CheckAllOptionsRead 1 "root." abc_keys) root_heap
      = Throws (UnrecognizedOption "text" "root.c") h'.
Proof.
  split; [|split; [|split]].
  - rewrite (proj1 (CheckAllOptionsRead_first_unread 1 "root." sample_heap
                      sample_root eq_refl _ sample_root_depth_first)).
    reflexivity.
  - rewrite (proj1 (CheckAllOptionsRead_first_unread 1 "root." sample_heap
                      sample_root eq_refl _ sample_root_threads_first)).
    reflexivity.
  - rewrite (proj1 (CheckAllOptionsRead_first_unread 1 "root." checked_heap
                      checked_root eq_refl _ checked_root_order)).
    reflexivity.
  - destruct (CheckAllOptionsRead_first_unread 1 "root." root_heap
                (new_OptionsDict None) eq_refl (λ _, []))
      as (_ & _ & _ & _ & Hthree).
    { intros []; vm_compute; reflexivity. }
    eexists.
    apply (Hthree TInt "a" 1 TFloat "b" float_2_5 TString "c" "x" 1%nat).
    + apply unread_new_OptionsDict.
    + by left.
    + by left.
    + by left.
    + lia.
    + intros []; vm_compute; reflexivity.
Defined.

(** ** Reading a dictionary from text *)

(** C5. Reading [a=1, b=2.5, c="x", d(e=3)] into an empty dictionary
    without parent leaves integer [a] = 1, floating-point [b] = 2.5, text
    [c] = "x", all unread, and a sub-dictionary [d] whose parent is the
    dictionary read into and which holds integer [e] = 3.  [HasSubdict("d")]
    is then true, and [Get<int>("e")] on the enclosing dictionary throws
    the "was not set" exception: lookup goes to parents only, while on [d]
    it yields 3, and [Get<int>("a")] on [d] yields 1 through the parent. *)
Theorem AddSubdictFromString_sample :
  AddSubdictFromString 1 sample_text root_heap = Returns tt parsed_heap
  ∧ (∃ dr, parsed_heap !! 1 = Some dr
       ∧ parent_ dr = None
       ∧ bool_dict_ dr = ∅
       ∧ int_dict_ dr = <["a" := mkV 1 false]> ∅
       ∧ float_dict_ dr = <["b" := mkV float_2_5 false]> ∅
       ∧ string_dict_ dr = <["c" := mkV "x" false]> ∅
       ∧ subdicts_ dr = <["d" := 2]> ∅)
  ∧ (∃ dd, parsed_heap !! 2 = Some dd
       ∧ parent_ dd = Some 1
       ∧ bool_dict_ dd = ∅
       ∧ int_dict_ dd = <["e" := mkV 3 false]> ∅
       ∧ float_dict_ dd = ∅
       ∧ string_dict_ dd = ∅
       ∧ subdicts_ dd = ∅)
  ∧ float_2_5 = SFdiv float_prec float_emax (S754_finite false 5 0)
                  (S754_finite false 2 0)
  ∧ (10485760 * 2 = 5 * 2 ^ 22)%Z
  ∧ HasSubdict 1 "d" parsed_heap = Returns true parsed_heap
  ∧ GetSubdict 1 "d" parsed_heap = Returns 2 parsed_heap
  ∧ (∀ fuel, Get (S fuel) TInt 1 "e" parsed_heap
             = Throws (KeyNotFound "e") parsed_heap)
  ∧ (∀ fuel, result_of (Get (S fuel) TInt 2 "e" parsed_heap) = Value 3)
  ∧ (∀ fuel, result_of (Get (S (S fuel)) TInt 2 "a" parsed_heap) = Value 1).
Proof.
  split; [by vm_compute|].
  split; [by exists parsed_root|].
  split; [by exists parsed_d|].
  split; [by vm_compute|]. split; [done|].
  split; [by vm_compute|]. split; [by vm_compute|].
  split; [intros fuel; by rewrite Get_S|].
  split; [intros fuel; by rewrite Get_S|].
  intros fuel. by rewrite !Get_S.
Qed.

(** * Further properties of the header *)

(** ** Exists against Get *)

Lemma Exists_as_Get t key h fuel :
  ∀ this,
    result_of (Exists fuel t this key h) =
    match result_of (Get fuel t this key h) with
    | Value _ => Value true
    | Raised _ => Value false
    | NoResult => NoResult
    end.
Proof.
  induction fuel as [|fuel IH]; intros this; [done|].
  rewrite Exists_S, Get_S.
  destruct (h !! this) as [d|]; [|done].
  destruct (dict_ t d !! key); [done|].
  destruct (parent_ d); [apply IH|done].
Qed.

(** X1. [Exists<T>(key)] answers whether [Get<T>(key)] would find a value:
    it is true exactly where [Get] returns, and false exactly where [Get]
    throws. *)
Theorem Exists_agrees_with_Get (t : ValueType) (key : string) (h : heap)
    (fuel : nat) (this : addr) :
  (Exists fuel t this key h = Returns true h
   ↔ ∃ x, result_of (Get fuel t this key h) = Value x)
  ∧ (Exists fuel t this key h = Returns false h
     ↔ ∃ e, result_of (Get fuel t this key h) = Raised e)
  ∧ result_of (Exists fuel t this key h) =
    match result_of (Get fuel t this key h) with
    | Value _ => Value true
    | Raised _ => Value false
    | NoResult => NoResult
    end.
Proof.
  pose proof (Exists_as_Get t key h fuel this) as Hag.
  pose proof (Exists_outcome t key h fuel this) as Ho.
  split; [|split; [|done]].
  - split.
    + intros HE. rewrite HE in Hag. simpl in Hag.
      destruct (result_of (Get fuel t this key h)); simplify_eq. eauto.
    + intros [x Hx]. rewrite Hx in Hag.
      destruct (Exists fuel t this key h); simplify_eq/=. done.
  - split.
    + intros HE. rewrite HE in Hag. simpl in Hag.
      destruct (result_of (Get fuel t this key h)); simplify_eq. eauto.
    + intros [e He]. rewrite He in Hag.
      destruct (Exists fuel t this key h); simplify_eq/=. done.
Qed.

Lemma Exists_agrees_with_Get_witness :
  Exists 3 TInt 3 "threads" sample_heap = Returns true sample_heap
  ∧ Exists 3 TInt 3 "nodes" sample_heap = Returns false sample_heap.
Proof.
  split.
  - apply (proj1 (Exists_agrees_with_Get TInt "threads" sample_heap 3 3)).
    by exists 2.
  - apply (proj1 (proj2 (Exists_agrees_with_Get TInt "nodes" sample_heap 3 3))).
    by exists (KeyNotFound "nodes").
Defined.

(** ** What a read changes *)

Lemma with_entry_with_entry t key v v' d :
  with_entry t key v (with_entry t key v' d) = with_entry t key v d.
Proof.
  unfold with_entry.
  by rewrite dict_with_dict_eq, insert_insert_eq, with_dict_with_dict.
Qed.

Lemma parent_with_entry t key v d : parent_ (with_entry t key v d) = parent_ d.
Proof. apply parent_with_dict. Qed.

Lemma subdicts_with_entry t key v d :
  subdicts_ (with_entry t key v d) = subdicts_ d.
Proof. apply subdicts_with_dict. Qed.

Lemma reads_only_refl h : reads_only h h.
Proof.
  intros a. destruct (h !! a) as [d|]; [|done].
  split; [done|]. split; [done|]. intros t k.
  by destruct (dict_ t d !! k).
Qed.

Lemma reads_only_mark t this key d v h :
  h !! this = Some d → dict_ t d !! key = Some v →
  reads_only h (<[this := with_entry t key (mkV (value_ v) true) d]> h).
Proof.
  intros Hd Hv a. destruct (decide (a = this)) as [->|Ha].
  - rewrite Hd, lookup_insert_eq.
    split; [apply parent_with_entry|]. split; [apply subdicts_with_entry|].
    intros t' k'.
    destruct (decide (t = t' ∧ key = k')) as [[<- <-]|Hne].
    + by rewrite Hv, lookup_with_entry_eq.
    + rewrite lookup_with_entry_ne.
      * by destruct (dict_ t' d !! k').
      * destruct (decide (t = t')), (decide (key = k')); naive_solver.
  - rewrite lookup_insert_ne by done. apply reads_only_refl.
Qed.

Lemma Get_outcome_reads_only t key h fuel :
  ∀ this, match Get fuel t this key h with
          | Returns _ h' => reads_only h h'
          | Throws _ h' => h' = h
          | _ => True
          end.
Proof.
  induction fuel as [|fuel IH]; intros this; [done|].
  rewrite Get_S. destruct (h !! this) as [d|] eqn:Hd; [|done].
  destruct (dict_ t d !! key) as [v|] eqn:Hv.
  - by apply reads_only_mark.
  - destruct (parent_ d); [apply IH|done].
Qed.

Lemma reads_only_same_values h h' t key :
  reads_only h h' → same_values_at t key h h'.
Proof.
  intros Hr a. specialize (Hr a).
  destruct (h !! a) as [d|], (h' !! a) as [d'|]; try done.
  destruct Hr as (Hp & _ & Hk). split; [done|]. specialize (Hk t key).
  destruct (dict_ t d !! key), (dict_ t d' !! key); try done.
  simpl. f_equal. tauto.
Qed.

Lemma reads_only_same_links h h' : reads_only h h' → same_links h h'.
Proof.
  intros Hr a. specialize (Hr a).
  destruct (h !! a) as [d|], (h' !! a) as [d'|]; try done.
  destruct Hr as (Hp & _). simpl. by f_equal.
Qed.

Lemma same_view_same_values t key h h' :
  same_view t key h h' → same_values_at t key h h'.
Proof.
  intros Hv a. specialize (Hv a).
  destruct (h !! a) as [d|], (h' !! a) as [d'|]; try done.
  destruct Hv as [-> ->]. done.
Qed.

Section same_values.
Context (t : ValueType) (key : string) (h h' : heap).
Hypothesis Hsame : same_values_at t key h h'.

Lemma Get_same_values fuel :
  ∀ this, result_of (Get fuel t this key h') = result_of (Get fuel t this key h).
Proof.
  induction fuel as [|fuel IH]; intros this; [done|].
  rewrite !Get_S. pose proof (Hsame this) as Hv.
  destruct (h !! this) as [d|], (h' !! this) as [d'|]; try done.
  destruct Hv as [Hp Hk].
  destruct (dict_ t d !! key), (dict_ t d' !! key); simplify_eq/=; [congruence|].
  rewrite Hp. destruct (parent_ d); [apply IH|done].
Qed.

Lemma GetOrDefault_same_values dv fuel :
  ∀ this, result_of (GetOrDefault fuel t this key dv h')
          = result_of (GetOrDefault fuel t this key dv h).
Proof.
  induction fuel as [|fuel IH]; intros this; [done|].
  rewrite !GetOrDefault_S. pose proof (Hsame this) as Hv.
  destruct (h !! this) as [d|], (h' !! this) as [d'|]; try done.
  destruct Hv as [Hp Hk].
  destruct (dict_ t d !! key), (dict_ t d' !! key); simplify_eq/=; [congruence|].
  rewrite Hp. destruct (parent_ d); [apply IH|done].
Qed.

Lemma Exists_same_values fuel :
  ∀ this, result_of (Exists fuel t this key h')
          = result_of (Exists fuel t this key h).
Proof.
  induction fuel as [|fuel IH]; intros this; [done|].
  rewrite !Exists_S. pose proof (Hsame this) as Hv.
  destruct (h !! this) as [d|], (h' !! this) as [d'|]; try done.
  destruct Hv as [Hp Hk].
  destruct (dict_ t d !! key), (dict_ t d' !! key); simplify_eq/=; [congruence|].
  rewrite Hp. destruct (parent_ d); [apply IH|done].
Qed.

Lemma IsDefault_same_values fuel :
  ∀ this, result_of (IsDefault fuel t this key h')
          = result_of (IsDefault fuel t this key h).
Proof.
  induction fuel as [|fuel IH]; intros this; [done|].
  rewrite !IsDefault_S. pose proof (Hsame this) as Hv.
  destruct (h !! this) as [d|], (h' !! this) as [d'|]; try done.
  destruct Hv as [Hp Hk]. rewrite Hp. destruct (parent_ d); [|done].
  destruct (dict_ t d !! key), (dict_ t d' !! key); simplify_eq/=; [congruence|].
  apply IH.
Qed.

End same_values.

(** X2. A [Get<T>(key)] that returns changes read flags at most: every
    dictionary keeps its parent, its sub-dictionaries, its keys and its
    values, and no entry goes back from read to unread.  A [Get] that throws
    leaves the store exactly as it was. *)
Theorem Get_changes_flags_only (t : ValueType) (key : string) (h : heap)
    (fuel : nat) (this : addr) :
  (∀ x h', Get fuel t this key h = Returns x h' → reads_only h h')
  ∧ (∀ e h', Get fuel t this key h = Throws e h' → h' = h).
Proof.
  pose proof (Get_outcome_reads_only t key h fuel this) as Ho.
  split; intros ? h' Heq; by rewrite Heq in Ho.
Qed.

Lemma Get_changes_flags_only_witness :
  ∃ h', Get 3 TInt 3 "threads" sample_heap = Returns 2 h'
        ∧ reads_only sample_heap h'
        ∧ (∀ h'', Get 3 TInt 3 "nodes" sample_heap
                  = Throws (KeyNotFound "nodes") h'' → h'' = sample_heap).
Proof.
  destruct (Get_changes_flags_only TInt "threads" sample_heap 3 3) as [Hret _].
  destruct (Get_changes_flags_only TInt "nodes" sample_heap 3 3) as [_ Hthrow].
  eexists. split; [reflexivity|]. split.
  - eapply Hret. reflexivity.
  - intros h'' Heq. by eapply Hthrow.
Defined.

(** X3. Reading twice is reading once: where [Get<T>(key)] has returned a
    value, a second [Get<T>(key)] on the same dictionary returns the same
    value and leaves the store as the first one left it. *)
Theorem Get_twice (t : ValueType) (key : string) (fuel : nat) :
  ∀ (this : addr) (h : heap) (x : denote t) (h' : heap),
    Get fuel t this key h = Returns x h' →
    Get fuel t this key h' = Returns x h'.
Proof.
  induction fuel as [|fuel IH]; intros this h x h'; [done|].
  rewrite Get_S. destruct (h !! this) as [d|] eqn:Hd; [|done].
  destruct (dict_ t d !! key) as [v|] eqn:Hv.
  - intros [= <- <-]. set (d1 := with_entry t key (mkV (value_ v) true) d).
    change (Get (S fuel) t this key (<[this := d1]> h)
            = Returns (value_ v) (<[this := d1]> h)).
    rewrite (Get_own t this key (<[this := d1]> h) d1 (mkV (value_ v) true));
      [|apply lookup_insert_eq|apply lookup_with_entry_eq].
    unfold d1. by rewrite insert_insert_eq, with_entry_with_entry.
  - destruct (parent_ d) as [parent|] eqn:Hp; [|done].
    intros HG. pose proof (Get_outcome_reads_only t key h fuel parent) as Hr.
    rewrite HG in Hr. specialize (Hr this). rewrite Hd in Hr.
    destruct (h' !! this) as [d'|] eqn:Hd'; [|done].
    destruct Hr as (Hp' & _ & Hk). specialize (Hk t key). rewrite Hv in Hk.
    destruct (dict_ t d' !! key) eqn:Hv'; [done|].
    rewrite Get_S, Hd', Hv', Hp', Hp. by eapply IH.
Qed.

Lemma Get_twice_witness :
  ∃ h', Get 3 TInt 3 "threads" sample_heap = Returns 2 h'
        ∧ Get 3 TInt 3 "threads" h' = Returns 2 h'.
Proof.
  eexists. split; [reflexivity|].
  apply (Get_twice TInt "threads" 3 3 sample_heap). reflexivity.
Defined.

(** X4. A [Get] or [GetOrDefault] changes nothing that a lookup can see:
    after it has run, [Get], [GetOrDefault], [Exists] and [IsDefault], on
    any dictionary, at any type and for any key, yield what they would have
    yielded before. *)
Theorem lookups_after_Get (t : ValueType) (key : string) (h : heap)
    (fuel : nat) (this : addr) (x : denote t) (h' : heap)
    (Hread : Get fuel t this key h = Returns x h'
             ∨ ∃ dv, GetOrDefault fuel t this key dv h = Returns x h') :
  ∀ fuel' t' that key',
    result_of (Get fuel' t' that key' h') = result_of (Get fuel' t' that key' h)
    ∧ (∀ dv, result_of (GetOrDefault fuel' t' that key' dv h')
             = result_of (GetOrDefault fuel' t' that key' dv h))
    ∧ result_of (Exists fuel' t' that key' h')
      = result_of (Exists fuel' t' that key' h)
    ∧ result_of (IsDefault fuel' t' that key' h')
      = result_of (IsDefault fuel' t' that key' h).
Proof.
  assert (Hr : reads_only h h').
  { pose proof (Get_outcome_reads_only t key h fuel this) as Ho.
    destruct Hread as [HG|[dv HG]].
    - by rewrite HG in Ho.
    - rewrite GetOrDefault_as_Get in HG.
      destruct (Get fuel t this key h); simplify_eq; [done|].
      apply reads_only_refl. }
  intros fuel' t' that key'.
  pose proof (reads_only_same_values h h' t' key' Hr) as Hs.
  split; [by apply Get_same_values|].
  split; [intros dv; by apply GetOrDefault_same_values|].
  split; [by apply Exists_same_values|by apply IsDefault_same_values].
Qed.

Lemma lookups_after_Get_witness :
  ∃ h', Get 3 TInt 3 "threads" sample_heap = Returns 2 h'
        ∧ result_of (Get 2 TInt 2 "depth" h') = Value 7
        ∧ result_of (IsDefault 2 TInt 3 "threads" h') = Value false.
Proof.
  eexists. split; [reflexivity|].
  pose proof (lookups_after_Get TInt "threads" sample_heap 3 3 2 _
                (or_introl eq_refl)) as Hl.
  split.
  - rewrite (proj1 (Hl 2%nat TInt 2 "depth")). reflexivity.
  - rewrite (proj2 (proj2 (proj2 (Hl 2%nat TInt 3 "threads")))). reflexivity.
Defined.

(** ** What a write changes *)

(** X5. [Set<T'>(ka, value)] touches one entry of one typed store: for any
    other key, and for the same key at any other type, [Get], [GetOrDefault],
    [Exists] and [IsDefault] on every dictionary yield what they yielded
    before the write.  The typed stores are separate key spaces. *)
Theorem Set_frame (t' : ValueType) (scope : addr) (ka : string)
    (value : denote t') (h h1 : heap)
    (HSet : Set_ t' scope ka value h = Returns tt h1)
    (t : ValueType) (kb : string) (Hother : t' ≠ t ∨ ka ≠ kb) :
  ∀ fuel this,
    result_of (Get fuel t this kb h1) = result_of (Get fuel t this kb h)
    ∧ (∀ dv, result_of (GetOrDefault fuel t this kb dv h1)
             = result_of (GetOrDefault fuel t this kb dv h))
    ∧ result_of (Exists fuel t this kb h1) = result_of (Exists fuel t this kb h)
    ∧ result_of (IsDefault fuel t this kb h1)
      = result_of (IsDefault fuel t this kb h).
Proof.
  intros fuel this.
  pose proof (same_view_same_values _ _ _ _
                (Set_same_view _ _ _ _ _ _ _ _ HSet Hother)) as Hs.
  split; [by apply Get_same_values|].
  split; [intros dv; by apply GetOrDefault_same_values|].
  split; [by apply Exists_same_values|by apply IsDefault_same_values].
Qed.

Lemma Set_frame_witness :
  ∃ h1, Set_ TFloat 3 "threads" float_2_5 sample_heap = Returns tt h1
        ∧ result_of (Get 3 TInt 3 "threads" h1) = Value 2
        ∧ result_of (Exists 3 TFloat 3 "depth" h1) = Value false.
Proof.
  set (h1 := <[3 := with_entry TFloat "threads" (mkV float_2_5 false) sample_leaf]>
               sample_heap).
  assert (HSet : Set_ TFloat 3 "threads" float_2_5 sample_heap = Returns tt h1).
  { by apply Set_at. }
  assert (Htype : TFloat ≠ TInt) by done.
  assert (Hkey : "threads" ≠ "depth") by done.
  exists h1. split; [exact HSet|]. split.
  - rewrite (proj1 (Set_frame TFloat 3 "threads" float_2_5 sample_heap h1
                      HSet TInt "threads" (or_introl Htype) 3%nat 3)).
    reflexivity.
  - rewrite (proj1 (proj2 (proj2
               (Set_frame TFloat 3 "threads" float_2_5 sample_heap h1
                  HSet TFloat "depth" (or_intror Hkey) 3%nat 3)))).
    reflexivity.
Defined.

(** X6. The last write wins, and a write makes the entry unread again:
    two [Set]s of one key leave what the second alone leaves; and after
    [Set], [Get], [Set] the entry holds the new value with its flag
    cleared, so that [EnsureNoUnusedOptions] on that store throws, in
    whatever order the store is iterated. *)
Theorem Set_overwrites_and_resets (t : ValueType) (this : addr) (key : string)
    (v v' : denote t) (h : heap) (d : OptionsDict)
    (Hthis : h !! this = Some d) :
  (do Set_ t this key v then Set_ t this key v') h = Set_ t this key v' h
  ∧ ∀ fuel, ∃ h3 d3,
      (do Set_ t this key v then
       do Get (S fuel) t this key then
       Set_ t this key v') h = Returns tt h3
      ∧ h3 !! this = Some d3
      ∧ dict_ t d3 !! key = Some (mkV v' false)
      ∧ ∀ order tn prefix,
          iteration_order (dict_ t d3) order →
          EnsureNoUnusedOptions (dict_ t d3) order tn prefix ≠ None.
Proof.
  split.
  - unfold bind. rewrite !(Set_at _ _ _ _ _ _ Hthis).
    rewrite (Set_at _ _ _ _ _ (with_entry t key (mkV v false) d))
      by apply lookup_insert_eq.
    by rewrite insert_insert_eq, with_entry_with_entry.
  - intros fuel.
    exists (<[this := with_entry t key (mkV v' false) d]> h),
           (with_entry t key (mkV v' false) d).
    split; [|split; [apply lookup_insert_eq|split; [apply lookup_with_entry_eq|]]].
    + unfold bind at 1. rewrite (Set_at _ _ _ _ _ _ Hthis).
      unfold bind at 1.
      rewrite (Get_own t this key _ (with_entry t key (mkV v false) d)
                 (mkV v false));
        [|apply lookup_insert_eq|apply lookup_with_entry_eq].
      rewrite insert_insert_eq, with_entry_with_entry.
      rewrite (Set_at _ _ _ _ _ (with_entry t key (mkV v true) d))
        by apply lookup_insert_eq.
      by rewrite insert_insert_eq, with_entry_with_entry.
    + intros order tn prefix Horder Hnone.
      rewrite EnsureNoUnusedOptions_find_unread in Hnone.
      destruct (find_unread _ _) eqn:Hf; [done|].
      rewrite (find_unread_None _ _ Horder) in Hf.
      by specialize (Hf key _ (lookup_with_entry_eq t key (mkV v' false) d)).
Qed.

Lemma Set_overwrites_and_resets_witness :
  ∃ h3 d3,
    (do Set_ TInt 2 "threads" 4 then
     do Get 1 TInt 2 "threads" then
     Set_ TInt 2 "threads" 8) sample_heap = Returns tt h3
    ∧ h3 !! 2 = Some d3
    ∧ dict_ TInt d3 !! "threads" = Some (mkV 8 false).
Proof.
  destruct (Set_overwrites_and_resets TInt 2 "threads" 4 8 sample_heap
              sample_search eq_refl) as [_ Hreset].
  destruct (Hreset 0%nat) as (h3 & d3 & Hrun & Hd3 & Hk & _).
  by exists h3, d3.
Defined.

Lemma Set_then_Get_below t key v a da h :
  h !! a = Some da →
  ∀ this n, absent_below t key h this n a →
    ∀ fuel,
      Get (n + S fuel) t this key
        (<[a := with_entry t key (mkV v false) da]> h)
      = Returns v (<[a := with_entry t key (mkV v true) da]> h).
Proof.
  intros Ha.
  assert (Hat : ∀ fuel,
            Get (S fuel) t a key (<[a := with_entry t key (mkV v false) da]> h)
            = Returns v (<[a := with_entry t key (mkV v true) da]> h)).
  { intros fuel.
    rewrite (Get_own t a key _ (with_entry t key (mkV v false) da) (mkV v false));
      [|apply lookup_insert_eq|apply lookup_with_entry_eq].
    by rewrite insert_insert_eq, with_entry_with_entry. }
  induction 1 as [this|this d parent n a Hd Hk Hp _ IH]; intros fuel.
  - apply Hat.
  - destruct (decide (this = a)) as [->|Hne]; [apply Hat|].
    simpl Nat.add. rewrite Get_S, lookup_insert_ne, Hd, Hk, Hp by done.
    by apply IH.
Qed.

(** X7. A [Set<T>(key, value)] on a dictionary is what every dictionary
    below it sees, as long as none of the dictionaries in between holds the
    key itself: [Get<T>(key)] on such a descendant returns [value], and it
    is the entry of the dictionary written to that gets marked read. *)
Theorem Set_seen_by_descendants (t : ValueType) (key : string)
    (value : denote t) (h : heap) (a : addr) (da : OptionsDict)
    (Ha : h !! a = Some da)
    (this : addr) (n : nat) (Hbelow : absent_below t key h this n a)
    (fuel : nat) (Hfuel : (n < fuel)%nat) :
  (do Set_ t a key value then Get fuel t this key) h
  = Returns value (<[a := with_entry t key (mkV value true) da]> h).
Proof.
  unfold bind. rewrite (Set_at _ _ _ _ _ _ Ha).
  replace fuel with (n + S (fuel - S n))%nat by lia.
  by apply Set_then_Get_below.
Qed.

Lemma Set_seen_by_descendants_witness :
  (do Set_ TInt 2 "depth" 9 then Get 2 TInt 3 "depth") sample_heap
  = Returns 9 (<[2 := with_entry TInt "depth" (mkV 9 true) sample_search]>
                 sample_heap).
Proof.
  apply (Set_seen_by_descendants TInt "depth" 9 sample_heap 2 sample_search
           eq_refl 3 1); [|lia].
  eapply absent_up; [reflexivity..|apply absent_here].
Defined.

(** X8. A [Set] on a dictionary is invisible to every dictionary whose
    parent chain does not pass through it - its ancestors, its siblings
    and unrelated dictionaries: their [Get] and [Exists], for any key and
    type, yield what they yielded before. *)
Theorem Set_not_seen_elsewhere (t : ValueType) (this : addr) (key : string)
    (value : denote t) (h h1 : heap)
    (HSet : Set_ t this key value h = Returns tt h1)
    (that : addr) (Havoids : avoids h this that) :
  ∀ fuel t' key',
    result_of (Get fuel t' that key' h1) = result_of (Get fuel t' that key' h)
    ∧ result_of (Exists fuel t' that key' h1)
      = result_of (Exists fuel t' that key' h).
Proof.
  rewrite Set_eq in HSet. destruct (h !! this) as [d|]; [|done].
  injection HSet as <-.
  induction Havoids as [that d' Hne Hd Hp|that d' parent Hne Hd Hp _ IH];
    intros [|fuel] t' key'; try done;
    rewrite !Get_S, !Exists_S, lookup_insert_ne, Hd, Hp by done.
  - by destruct (dict_ t' d' !! key').
  - destruct (dict_ t' d' !! key'); [done|]. apply IH.
Qed.

Lemma sample_root_avoids_search : avoids sample_heap 2 1.
Proof. eapply avoids_root; [done|reflexivity..]. Defined.

Lemma Set_not_seen_elsewhere_witness :
  ∃ h1, Set_ TInt 2 "threads" 64 sample_heap = Returns tt h1
        ∧ result_of (Get 1 TInt 1 "threads" h1) = Value 1.
Proof.
  set (h1 := <[2 := with_entry TInt "threads" (mkV 64 false) sample_search]>
               sample_heap).
  assert (HSet : Set_ TInt 2 "threads" 64 sample_heap = Returns tt h1).
  { by apply Set_at. }
  exists h1. split; [exact HSet|].
  rewrite (proj1 (Set_not_seen_elsewhere TInt 2 "threads" 64 sample_heap h1
                    HSet 1 sample_root_avoids_search 1%nat TInt "threads")).
  reflexivity.
Defined.

(** X9. After [Set<T>(key, value)] on a dictionary, the key exists there,
    [GetOrDefault] yields the value written and not the default, and
    [IsDefault] is false - unless the dictionary has no parent, where it
    stays true. *)
Theorem Set_then_queries (t : ValueType) (this : addr) (key : string)
    (value : denote t) (h : heap) (d : OptionsDict)
    (Hthis : h !! this = Some d) :
  ∃ h1,
    Set_ t this key value h = Returns tt h1
    ∧ ∀ fuel,
        Exists (S fuel) t this key h1 = Returns true h1
        ∧ IsDefault (S fuel) t this key h1
          = Returns (bool_decide (parent_ d = None)) h1
        ∧ ∀ dv, result_of (GetOrDefault (S fuel) t this key dv h1) = Value value.
Proof.
  exists (<[this := with_entry t key (mkV value false) d]> h).
  split; [by apply Set_at|]. intros fuel.
  rewrite Exists_S, IsDefault_S, lookup_insert_eq, lookup_with_entry_eq,
    parent_with_entry.
  split; [done|]. split.
  - by destruct (parent_ d).
  - intros dv.
    by rewrite GetOrDefault_S, lookup_insert_eq, lookup_with_entry_eq.
Qed.

Lemma Set_then_queries_witness :
  ∃ h1, Set_ TInt 3 "nodes" 800 sample_heap = Returns tt h1
        ∧ Exists 1 TInt 3 "nodes" h1 = Returns true h1
        ∧ IsDefault 1 TInt 3 "nodes" h1 = Returns false h1
        ∧ result_of (GetOrDefault 1 TInt 3 "nodes" 5 h1) = Value 800.
Proof.
  destruct (Set_then_queries TInt 3 "nodes" 800 sample_heap sample_leaf eq_refl)
    as (h1 & HSet & Hq).
  destruct (Hq 0%nat) as (HE & HI & HG).
  exists h1. split; [exact HSet|]. split; [exact HE|]. split; [exact HI|].
  apply HG.
Defined.

(** ** The shape of the store *)


Lemma same_links_with_entry h this d t key v :
  h !! this = Some d →
  same_links h (<[this := with_entry t key v d]> h).
Proof.
  intros Hd a. destruct (decide (a = this)) as [->|Hne].
  - rewrite lookup_insert_eq, Hd. simpl. by rewrite parent_with_entry.
  - by rewrite lookup_insert_ne.
Qed.






(** ** IsDefault along the chain *)

Lemma IsDefault_absent_below t key h this n a :
  absent_below t key h this n a →
  ∀ fuel, IsDefault (n + fuel) t this key h = IsDefault fuel t a key h.
Proof.
  induction 1 as [|this d parent n a Hd Hk Hp _ IH]; intros fuel; [done|].
  simpl Nat.add. rewrite IsDefault_S, Hd, Hp, Hk. apply IH.
Qed.

(** X11. [IsDefault<T>(key)] tells where the key is first found going up:
    it is false when that is a dictionary that has a parent, and true when
    the climb reaches the dictionary without parent, whether the key is
    set there or not. *)
Theorem IsDefault_along_chain (t : ValueType) (key : string) (h : heap)
    (this : addr) (n : nat) (a : addr) (da : OptionsDict)
    (Hbelow : absent_below t key h this n a) (Ha : h !! a = Some da)
    (fuel : nat) (Hfuel : (n < fuel)%nat) :
  (parent_ da = None → IsDefault fuel t this key h = Returns true h)
  ∧ (is_Some (parent_ da) → is_Some (dict_ t da !! key) →
       IsDefault fuel t this key h = Returns false h).
Proof.
  replace fuel with (n + S (fuel - S n))%nat by lia.
  rewrite (IsDefault_absent_below _ _ _ _ _ _ Hbelow), IsDefault_S, Ha.
  split.
  - by intros ->.
  - by intros [p ->] [v ->].
Qed.

Lemma IsDefault_along_chain_witness :
  IsDefault 3 TInt 3 "depth" sample_heap = Returns true sample_heap
  ∧ IsDefault 3 TInt 3 "threads" sample_heap = Returns false sample_heap.
Proof.
  split.
  - apply (IsDefault_along_chain TInt "depth" sample_heap 3 2 1 sample_root);
      [|reflexivity|lia|reflexivity].
    eapply absent_up; [reflexivity..|].
    eapply absent_up; [reflexivity..|apply absent_here].
  - apply (IsDefault_along_chain TInt "threads" sample_heap 3 1 2 sample_search);
      [|reflexivity|lia|by eexists|by eexists].
    eapply absent_up; [reflexivity..|apply absent_here].
Defined.

(** X12. A key that [IsDefault<T>] reports as not default exists:
    [Exists<T>] is true for it and [Get<T>] returns a value. *)
Theorem not_default_exists (t : ValueType) (key : string) (h : heap)
    (fuel : nat) :
  ∀ (this : addr) (h' : heap),
    IsDefault fuel t this key h = Returns false h' →
    Exists fuel t this key h = Returns true h
    ∧ ∃ x, result_of (Get fuel t this key h) = Value x.
Proof.
  assert (HE : ∀ this h', IsDefault fuel t this key h = Returns false h' →
                          Exists fuel t this key h = Returns true h).
  { induction fuel as [|fuel IH]; intros this h'; [done|].
    rewrite IsDefault_S, Exists_S.
    destruct (h !! this) as [d|]; [|done].
    destruct (parent_ d); [|done].
    destruct (dict_ t d !! key); [done|]. apply IH. }
  intros this h' Hdef. specialize (HE this h' Hdef). split; [done|].
  pose proof (Exists_as_Get t key h fuel this) as Hag.
  rewrite HE in Hag. simpl in Hag.
  destruct (result_of (Get fuel t this key h)); simplify_eq. eauto.
Qed.

Lemma not_default_exists_witness :
  Exists 3 TInt 3 "threads" sample_heap = Returns true sample_heap
  ∧ ∃ x, result_of (Get 3 TInt 3 "threads" sample_heap) = Value x.
Proof.
  apply (not_default_exists TInt "threads" sample_heap 3 3 sample_heap).
  reflexivity.
Defined.

(** ** GetRef *)

Lemma ref_store_at t this key y h d v :
  h !! this = Some d → dict_ t d !! key = Some v →
  ref_store (mkRef this key) y h
  = Returns tt (<[this := with_entry t key (mkV y (is_used_ v)) d]> h).
Proof.
  intros Hd Hv. unfold ref_store, bind, deref. simpl. by rewrite Hd, Hv.
Qed.

(** X13. [GetRef<T>(key)] on a dictionary that does not hold the key
    creates the entry there, and from then on that dictionary answers for
    itself: [Get<T>(key)] on it returns the value-initialised [T], not what
    an ancestor holds, [Exists] is true, and [IsDefault] is false if the
    dictionary has a parent. *)
Theorem GetRef_shadows_parent (t : ValueType) (this : addr) (key : string)
    (h : heap) (d : OptionsDict)
    (Hthis : h !! this = Some d) (Habsent : dict_ t d !! key = None) :
  ∃ h',
    GetRef t this key h = Returns (mkRef this key) h'
    ∧ ∀ fuel,
        Get (S fuel) t this key h' = Returns (zero t) h'
        ∧ Exists (S fuel) t this key h' = Returns true h'
        ∧ IsDefault (S fuel) t this key h'
          = Returns (bool_decide (parent_ d = None)) h'.
Proof.
  exists (<[this := with_entry t key (mkV (zero t) true) d]> h).
  split; [by rewrite GetRef_eq, Hthis, Habsent|].
  intros fuel. split; [|split].
  - rewrite (Get_own t this key _ (with_entry t key (mkV (zero t) true) d)
               (mkV (zero t) true));
      [|apply lookup_insert_eq|apply lookup_with_entry_eq].
    by rewrite insert_insert_eq, with_entry_with_entry.
  - by rewrite Exists_S, lookup_insert_eq, lookup_with_entry_eq.
  - rewrite IsDefault_S, lookup_insert_eq, lookup_with_entry_eq,
      parent_with_entry.
    by destruct (parent_ d).
Qed.

Lemma GetRef_shadows_parent_witness :
  result_of (Get 3 TInt 3 "threads" sample_heap) = Value 2
  ∧ ∃ h', GetRef TInt 3 "threads" sample_heap = Returns (mkRef 3 "threads") h'
          ∧ Get 3 TInt 3 "threads" h' = Returns 0 h'
          ∧ IsDefault 3 TInt 3 "threads" h' = Returns false h'.
Proof.
  split; [reflexivity|].
  destruct (GetRef_shadows_parent TInt 3 "threads" sample_heap sample_leaf
              eq_refl eq_refl) as (h' & HR & Hq).
  destruct (Hq 2%nat) as (HG & _ & HI).
  exists h'. split; [exact HR|]. split; [exact HG|exact HI].
Defined.

(** X14. A value written through the reference that [GetRef<T>(key)]
    returns is what [Get<T>(key)] then returns, and the entry counts as
    read all along; the same value written with [Set] leaves the entry
    unread. *)
Theorem GetRef_write_then_Get (t : ValueType) (this : addr) (key : string)
    (y : denote t) (h : heap) (d : OptionsDict) (Hthis : h !! this = Some d)
    (fuel : nat) :
  (∃ h2 d2,
     (let* r := GetRef t this key in
      do ref_store r y then
      Get (S fuel) t this key) h = Returns y h2
     ∧ h2 !! this = Some d2
     ∧ dict_ t d2 !! key = Some (mkV y true)
     ∧ unread d2 t key = false)
  ∧ (∃ h1 d1,
       Set_ t this key y h = Returns tt h1
       ∧ h1 !! this = Some d1
       ∧ unread d1 t key = true).
Proof.
  split.
  - exists (<[this := with_entry t key (mkV y true) d]> h),
           (with_entry t key (mkV y true) d).
    split; [|split; [apply lookup_insert_eq|]].
    + unfold bind at 1. rewrite GetRef_eq, Hthis.
      set (x := default (zero t) (value_ <$> dict_ t d !! key)).
      change (with_dict_ t (<[key := mkV x true]> (dict_ t d)) d)
        with (with_entry t key (mkV x true) d).
      unfold bind at 1.
      rewrite (ref_store_at t this key y _ (with_entry t key (mkV x true) d)
                 (mkV x true));
        [|apply lookup_insert_eq|apply lookup_with_entry_eq].
      simpl is_used_. rewrite insert_insert_eq, with_entry_with_entry.
      rewrite (Get_own t this key _ (with_entry t key (mkV y true) d)
                 (mkV y true));
        [|apply lookup_insert_eq|apply lookup_with_entry_eq].
      by rewrite insert_insert_eq, with_entry_with_entry.
    + split; [apply lookup_with_entry_eq|].
      unfold unread. by rewrite lookup_with_entry_eq.
  - exists (<[this := with_entry t key (mkV y false) d]> h),
           (with_entry t key (mkV y false) d).
    split; [by apply Set_at|]. split; [apply lookup_insert_eq|].
    unfold unread. by rewrite lookup_with_entry_eq.
Qed.

Lemma GetRef_write_then_Get_witness :
  ∃ h2,
    (let* r := GetRef TInt 3 "threads" in
     do ref_store r 16 then
     Get 1 TInt 3 "threads") sample_heap = Returns 16 h2.
Proof.
  destruct (GetRef_write_then_Get TInt 3 "threads" 16 sample_heap sample_leaf
              eq_refl 0) as [(h2 & d2 & Hrun & _) _].
  by exists h2.
Defined.

(** ** EnsureNoUnusedOptions *)

(** X15. In whatever order the store is iterated,
    [EnsureNoUnusedOptions] returns normally exactly when every entry of the
    store has been read, in particular on an empty store; when it throws,
    the message is "Unknown <type_name> option: <prefix><key>" for a key
    that is in the store and has not been read. *)
Theorem EnsureNoUnusedOptions_outcome {T : Type} (dict : gmap string (V T))
    (order : list string) (Horder : iteration_order dict order)
    (tn prefix : string) :
  (EnsureNoUnusedOptions dict order tn prefix = None
   ↔ ∀ k v, dict !! k = Some v → is_used_ v = true)
  ∧ (∀ e, EnsureNoUnusedOptions dict order tn prefix = Some e →
       ∃ k v, dict !! k = Some v ∧ is_used_ v = false
              ∧ what e = "Unknown " +:+ tn +:+ " option: " +:+ prefix +:+ k)
  ∧ (∀ order', EnsureNoUnusedOptions (∅ : gmap string (V T)) order' tn prefix
               = None).
Proof.
  rewrite EnsureNoUnusedOptions_find_unread. split; [|split].
  - rewrite <- (find_unread_None _ _ Horder).
    by destruct (find_unread dict order).
  - intros e. destruct (find_unread dict order) as [k|] eqn:Hf; [|done].
    intros [= <-]. apply find_unread_Some in Hf as (v & Hv & Hu).
    by exists k, v.
  - intros order'. rewrite EnsureNoUnusedOptions_find_unread.
    rewrite find_unread_all_read; [done|].
    intros k v. by rewrite lookup_empty.
Qed.

Lemma checked_root_int_order :
  iteration_order (int_dict_ checked_root) ["a"].
Proof. vm_compute. reflexivity. Defined.

Lemma sample_search_int_order :
  iteration_order (int_dict_ sample_search) ["threads"].
Proof. vm_compute. reflexivity. Defined.

Lemma EnsureNoUnusedOptions_outcome_witness :
  EnsureNoUnusedOptions (int_dict_ checked_root) ["a"] "integer" "root." = None
  ∧ ∃ k v, int_dict_ sample_search !! k = Some v ∧ is_used_ v = false
           ∧ "Unknown integer option: search.threads"
             = "Unknown integer option: search." +:+ k.
Proof.
  split.
  - apply (proj2 (proj1 (EnsureNoUnusedOptions_outcome
                            (int_dict_ checked_root) ["a"]
                            checked_root_int_order "integer" "root."))).
    intros k v Hk. unfold checked_root, with_subdicts_ in Hk. simpl in Hk.
    apply lookup_insert_Some in Hk as [[_ <-]|[_ Hk]]; [done|].
    by rewrite lookup_empty in Hk.
  - destruct (EnsureNoUnusedOptions_outcome (int_dict_ sample_search)
                ["threads"] sample_search_int_order "integer" "search.")
      as (_ & Hthrow & _).
    destruct (Hthrow (mkException "Unknown integer option: search.threads")
                eq_refl) as (k & v & Hk & Hu & Hmsg).
    by exists k, v.
Defined.

(** X16. A read through a descendant counts as use of the ancestor's
    option: when [Get<T>(key)] on a dictionary finds the key in an ancestor
    whose other entries of that type are all read, [EnsureNoUnusedOptions]
    on that ancestor's store returns normally afterwards, in whatever order
    it goes through the store. *)
Theorem read_below_counts_above (t : ValueType) (key : string) (h : heap)
    (this : addr) (n : nat) (a : addr) (da : OptionsDict) (v : V (denote t))
    (Hbelow : absent_below t key h this n a)
    (Ha : h !! a = Some da) (Hv : dict_ t da !! key = Some v)
    (Hothers : ∀ k' v', k' ≠ key → dict_ t da !! k' = Some v' →
                        is_used_ v' = true)
    (fuel : nat) (Hfuel : (n < fuel)%nat) :
  ∃ h' da',
    Get fuel t this key h = Returns (value_ v) h'
    ∧ h' !! a = Some da'
    ∧ ∀ order tn prefix,
        EnsureNoUnusedOptions (dict_ t da') order tn prefix = None.
Proof.
  exists (<[a := with_entry t key (mkV (value_ v) true) da]> h),
         (with_entry t key (mkV (value_ v) true) da).
  split; [|split; [apply lookup_insert_eq|]].
  - replace fuel with (n + S (fuel - S n))%nat by lia.
    rewrite (Get_absent_below _ _ _ _ _ _ Hbelow). by apply Get_own.
  - intros order tn prefix. rewrite EnsureNoUnusedOptions_find_unread.
    rewrite find_unread_all_read; [done|]. intros k' v' Hk'.
    destruct (decide (k' = key)) as [->|Hne].
    + rewrite lookup_with_entry_eq in Hk'. by simplify_eq.
    + rewrite lookup_with_entry_ne in Hk' by (right; congruence).
      by eapply Hothers.
Qed.

Lemma read_below_counts_above_witness :
  EnsureNoUnusedOptions (int_dict_ sample_search) ["threads"]
    "integer" "search."
    = Some (UnrecognizedOption "integer" "search.threads")
  ∧ ∃ h' da',
      Get 2 TInt 3 "threads" sample_heap = Returns 2 h'
      ∧ h' !! 2 = Some da'
      ∧ EnsureNoUnusedOptions (int_dict_ da') ["threads"]
          "integer" "search." = None.
Proof.
  split; [reflexivity|].
  destruct (read_below_counts_above TInt "threads" sample_heap 3 1 2
              sample_search (mkV 2 false)) with (fuel := 2%nat)
    as (h' & da' & HG & Hda & Hcheck).
  - eapply absent_up; [reflexivity..|apply absent_here].
  - reflexivity.
  - reflexivity.
  - intros k' v' Hne Hk'. simpl in Hk'.
    apply lookup_insert_Some in Hk' as [[? _]|[_ Hk']]; [done|].
    by rewrite lookup_empty in Hk'.
  - lia.
  - exists h', da'. split; [exact HG|]. split; [exact Hda|]. apply Hcheck.
Defined.

(** ** A new dictionary *)

(** X17. A dictionary as [OptionsDict(parent)] constructs it holds nothing
    of its own.  Without parent, [Get] throws, [Exists] is false,
    [GetOrDefault] yields the default and [IsDefault] is true, for every key
    and type.  With a parent, each of the four yields what it yields on the
    parent.  Its usage check passes, in any order. *)
Theorem new_OptionsDict_inherits (h : heap) (this : addr) (parent : option addr)
    (Hthis : h !! this = Some (new_OptionsDict parent))
    (t : ValueType) (key : string) (fuel : nat) :
  match parent with
  | None =>
      Get (S fuel) t this key h = Throws (KeyNotFound key) h
      ∧ Exists (S fuel) t this key h = Returns false h
      ∧ (∀ dv, GetOrDefault (S fuel) t this key dv h = Returns dv h)
      ∧ IsDefault (S fuel) t this key h = Returns true h
  | Some p =>
      Get (S fuel) t this key h = Get fuel t p key h
      ∧ Exists (S fuel) t this key h = Exists fuel t p key h
      ∧ (∀ dv, GetOrDefault (S fuel) t this key dv h
               = GetOrDefault fuel t p key dv h)
      ∧ IsDefault (S fuel) t this key h = IsDefault fuel t p key h
  end
  ∧ ∀ order tn prefix,
      EnsureNoUnusedOptions (dict_ t (new_OptionsDict parent)) order tn prefix
      = None.
Proof.
  assert (Hk : dict_ t (new_OptionsDict parent) !! key = None).
  { destruct t; apply lookup_empty. }
  split.
  - destruct parent as [p|].
    + split; [by rewrite Get_S, Hthis, Hk|].
      split; [by rewrite Exists_S, Hthis, Hk|].
      split; [intros dv; by rewrite GetOrDefault_S, Hthis, Hk|].
      by rewrite IsDefault_S, Hthis, Hk.
    + split; [by rewrite Get_S, Hthis, Hk|].
      split; [by rewrite Exists_S, Hthis, Hk|].
      split; [intros dv; by rewrite GetOrDefault_S, Hthis, Hk|].
      by rewrite IsDefault_S, Hthis.
  - intros order tn prefix. rewrite EnsureNoUnusedOptions_find_unread.
    rewrite find_unread_all_read; [done|].
    intros k v. destruct t; simpl; by rewrite lookup_empty.
Qed.

Lemma new_OptionsDict_inherits_witness :
  Get 3 TInt 3 "threads" sample_heap = Get 2 TInt 2 "threads" sample_heap
  ∧ Get 1 TInt 1 "threads" root_heap = Throws (KeyNotFound "threads") root_heap.
Proof.
  split.
  - apply (new_OptionsDict_inherits sample_heap 3 (Some 2) eq_refl
             TInt "threads" 2).
  - apply (new_OptionsDict_inherits root_heap 1 None eq_refl
             TInt "threads" 0).
Defined.

(** ** Identity keys and string keys *)

(** X18. What is written through an [OptionId] is read back through that
    object, whatever its contents: [Get], [Exists] and [GetOrDefault] keyed
    by an [OptionId] that [operator==] equates with the one written
    through find the value.  The entry lives in the same key space as the
    string keys, under the decimal form of the object's address: a
    string-keyed [Get] under that text finds it, and a string-keyed [Set]
    under that text overwrites it. *)
Theorem OptionId_round_trip (a b : OptionId)
    (Hsame : OptionId_eq a b = true)
    (t : ValueType) (this : addr) (value : denote t)
    (h : heap) (d : OptionsDict) (Hthis : h !! this = Some d) :
  ∃ h1,
    Set_id t this a value h = Returns tt h1
    ∧ ∀ fuel,
        result_of (Get_id (S fuel) t this b h1) = Value value
        ∧ Exists_id (S fuel) t this b h1 = Returns true h1
        ∧ (∀ dv, result_of (GetOrDefault_id (S fuel) t this b dv h1)
                 = Value value)
        ∧ result_of (Get (S fuel) t this (to_string (address_of a)) h1)
          = Value value
        ∧ ∀ value', ∃ h2,
            Set_ t this (to_string (address_of a)) value' h1 = Returns tt h2
            ∧ result_of (Get_id (S fuel) t this b h2) = Value value'.
Proof.
  assert (Hb : GetOptionId b = GetOptionId a).
  { unfold GetOptionId, OptionId_eq in *. f_equal. lia. }
  unfold Get_id, Exists_id, GetOrDefault_id, Set_id. rewrite Hb.
  change (to_string (address_of a)) with (GetOptionId a).
  set (key := GetOptionId a).
  exists (<[this := with_entry t key (mkV value false) d]> h).
  split; [by apply Set_at|]. intros fuel.
  rewrite Get_S, Exists_S, lookup_insert_eq, lookup_with_entry_eq.
  split; [done|]. split; [done|]. split.
  { intros dv. by rewrite GetOrDefault_S, lookup_insert_eq, lookup_with_entry_eq. }
  split; [done|]. intros value'.
  eexists. split.
  - apply Set_at, lookup_insert_eq.
  - by rewrite Get_S, lookup_insert_eq, lookup_with_entry_eq.
Qed.

Lemma OptionId_round_trip_witness :
  ∃ h1,
    Set_id TInt 1 key_A 4 root_heap = Returns tt h1
    ∧ result_of (Get_id 1 TInt 1 key_A h1) = Value 4
    ∧ result_of (Get 1 TInt 1 "4096" h1) = Value 4.
Proof.
  destruct (OptionId_round_trip key_A key_A eq_refl TInt 1 4 root_heap
              (new_OptionsDict None) eq_refl) as (h1 & HSet & Hq).
  destruct (Hq 0%nat) as (HG & _ & _ & Hstr & _).
  exists h1. split; [exact HSet|]. split; [exact HG|exact Hstr].
Defined.

(** X19. [GetRef<T'>(ka)] leaves every other lookup alone: for any other
    key, and for the same key at any other type, [Get], [GetOrDefault],
    [Exists] and [IsDefault] on every dictionary yield what they yielded
    before; and when the entry was already there, this holds for the key
    itself as well. *)
Theorem GetRef_frame (t' : ValueType) (scope : addr) (ka : string)
    (h : heap) (d : OptionsDict) (Hscope : h !! scope = Some d)
    (t : ValueType) (kb : string)
    (Hother : t' ≠ t ∨ ka ≠ kb ∨ is_Some (dict_ t' d !! ka)) :
  ∃ h1,
    GetRef t' scope ka h = Returns (mkRef scope ka) h1
    ∧ ∀ fuel this,
        result_of (Get fuel t this kb h1) = result_of (Get fuel t this kb h)
        ∧ (∀ dv, result_of (GetOrDefault fuel t this kb dv h1)
                 = result_of (GetOrDefault fuel t this kb dv h))
        ∧ result_of (Exists fuel t this kb h1)
          = result_of (Exists fuel t this kb h)
        ∧ result_of (IsDefault fuel t this kb h1)
          = result_of (IsDefault fuel t this kb h).
Proof.
  set (x := default (zero t') (value_ <$> dict_ t' d !! ka)).
  exists (<[scope := with_entry t' ka (mkV x true) d]> h).
  split; [by rewrite GetRef_eq, Hscope|].
  assert (Hs : same_values_at t kb h
                 (<[scope := with_entry t' ka (mkV x true) d]> h)).
  { intros a. destruct (decide (a = scope)) as [->|Hne].
    - rewrite Hscope, lookup_insert_eq. split; [apply parent_with_entry|].
      destruct (decide (t' = t ∧ ka = kb)) as [[<- <-]|Hdiff].
      + rewrite lookup_with_entry_eq.
        destruct Hother as [?|[?|[v Hv]]]; [done..|].
        unfold x. by rewrite Hv.
      + rewrite lookup_with_entry_ne; [done|].
        destruct (decide (t' = t)), (decide (ka = kb));
          [by destruct Hdiff|by right|by left|by left].
    - rewrite lookup_insert_ne by done. by destruct (h !! a). }
  intros fuel this.
  split; [by apply Get_same_values|].
  split; [intros dv; by apply GetOrDefault_same_values|].
  split; [by apply Exists_same_values|by apply IsDefault_same_values].
Qed.

Lemma GetRef_frame_witness :
  ∃ h1, GetRef TInt 2 "threads" sample_heap = Returns (mkRef 2 "threads") h1
        ∧ result_of (Get 2 TInt 3 "threads" h1) = Value 2.
Proof.
  assert (Hpresent : is_Some (dict_ TInt sample_search !! "threads"))
    by (by eexists).
  destruct (GetRef_frame TInt 2 "threads" sample_heap sample_search eq_refl
              TInt "threads" (or_intror (or_intror Hpresent)))
    as (h1 & HR & Hq).
  exists h1. split; [exact HR|].
  rewrite (proj1 (Hq 2%nat 3)). reflexivity.
Defined.
